(** * osclib.remote_project: linked-project resolution and package merge

    A shallow embedding of [osclib/remote_project.py] (classes
    [RemoteProject] and [ProjectMetadata]) together with the properties
    of the link-graph walk and of the inherited-package merge.

    Python values are modelled as follows.
    - [str] is [string]; a list is a [list]; a [dict] is an association
      list that keeps insertion order, as Python dictionaries do.
    - An lxml element is the inductive [element]; serialised documents
      are the type [bytes].
    - The build service reached through [osc.core] is the record [obs];
      every request appends to its [log], so that the number of round
      trips of an operation can be stated.
    - Exceptions are the type [exn]; a method runs in the monad [M],
      which threads the server and yields a value, a raised exception,
      or [OutOfFuel] for a [while] loop cut short by its fuel. *)

From Stdlib Require Import List String Ascii ZArith Lia Bool Permutation.
Import ListNotations.
Local Open Scope string_scope.
Local Open Scope list_scope.

Set Implicit Arguments.

(** ** Python dictionaries *)

Module Dict.

Definition t (V : Type) : Type := list (string * V).

Fixpoint get {V} (d : t V) (k : string) : option V :=
  match d with
  | [] => None
  | (k', v) :: d' => if String.eqb k' k then Some v else get d' k
  end.

(** [k in d] *)
Fixpoint mem {V} (k : string) (d : t V) : bool :=
  match d with
  | [] => false
  | (k', _) :: d' => if String.eqb k' k then true else mem k d'
  end.

(** [d[k] = v]: an existing key keeps its position, a new key goes last. *)
Fixpoint set {V} (d : t V) (k : string) (v : V) : t V :=
  match d with
  | [] => [(k, v)]
  | (k', v') :: d' =>
      if String.eqb k' k then (k', v) :: d' else (k', v') :: set d' k v
  end.

Definition keys {V} (d : t V) : list string := map fst d.

Definition values {V} (d : t V) : list V := map snd d.

End Dict.

(** ** Exceptions and the method monad *)

(** What [osc.core.http_GET] and [osc.core.http_PUT] raise:
    [urllib.error.HTTPError] with its status code, or any other failure of
    the transport, which [except HTTPError] does not catch. *)
Inductive transport_error : Type :=
| HTTPError (code : Z)
| URLError (reason : string).

Inductive exn : Type :=
| ProjectNotFound (msg : string)
| Transport (e : transport_error)
| XMLSyntaxError
| KeyError (key : string)
| AttributeError (msg : string)
| ValueError (msg : string).

(** ** lxml documents *)

(** The strings that lxml accepts as attribute values and as text, after
    its check of the UTF-8 form of a string: a byte below 128 must be a
    tab, a line feed, a carriage return or at least 32; a byte from 128
    on must not start the encoding of a surrogate or of one of the two
    code points FFFE and FFFF. *)
Definition xml_char (c : ascii) : bool :=
  let n := N_of_ascii c in
  (N.eqb n 9 || N.eqb n 10 || N.eqb n 13 || N.leb 32 n)%bool.

Definition forbidden3 (a b c : ascii) : bool :=
  let x := N_of_ascii a in
  let v := (N_of_ascii b * 256 + N_of_ascii c)%N in
  ((N.eqb x 239 && (N.eqb v 49086 || N.eqb v 49087))
   || (N.eqb x 237 && N.leb 41088 v && N.leb v 49087))%bool.

Fixpoint xml_compatible (s : string) : bool :=
  match s with
  | EmptyString => true
  | String a rest =>
      ((if N.leb 128 (N_of_ascii a) then
          match rest with
          | String b (String c _) => negb (forbidden3 a b c)
          | _ => true
          end
        else xml_char a) && xml_compatible rest)%bool
  end.

(** The exception of lxml for a string that fails the check. *)
Definition incompatible : exn :=
  ValueError
    "All strings must be XML compatible: Unicode or ASCII, no NULL bytes or control characters".

#[warnings="-register-all"]
Inductive element : Type :=
| Element (tag : string) (attrib : Dict.t string) (text : option string)
          (children : list element) (tail : option string).

(** A serialised document: either the serialisation of a tree, or bytes
    that are not well-formed markup. *)
Inductive bytes : Type :=
| Markup (root : element)
| Malformed (raw : string).

Module ET.

Definition tag (e : element) : string :=
  match e with Element t _ _ _ _ => t end.

Definition attrib (e : element) : Dict.t string :=
  match e with Element _ a _ _ _ => a end.

Definition text (e : element) : option string :=
  match e with Element _ _ x _ _ => x end.

Definition children (e : element) : list element :=
  match e with Element _ _ _ c _ => c end.

Definition tail (e : element) : option string :=
  match e with Element _ _ _ _ x => x end.

Definition fromstring (content : bytes) : exn + element :=
  match content with
  | Markup root => inr root
  | Malformed _ => inl XMLSyntaxError
  end.

Definition tostring (root : element) : bytes := Markup root.

(** [e.set(key, value)], for a [key] that is a valid attribute name (the
    code sets [name] only): lxml checks the value. *)
Definition set (e : element) (key value : string) : exn + element :=
  if xml_compatible value then
    match e with
    | Element t a x c tl => inr (Element t (Dict.set a key value) x c tl)
    end
  else inl incompatible.

(** [e.text = value]: lxml checks the value. *)
Definition set_text (e : element) (value : string) : exn + element :=
  if xml_compatible value then
    match e with
    | Element t a _ c tl => inr (Element t a (Some value) c tl)
    end
  else inl incompatible.

(** The children after [body] has run on each in turn, or the exception
    of the first on which it raises. *)
Fixpoint each_child (body : element -> exn + element) (c : list element)
  : exn + list element :=
  match c with
  | [] => inr []
  | child :: rest =>
      match body child with
      | inl e => inl e
      | inr child' =>
          match each_child body rest with
          | inl e => inl e
          | inr rest' => inr (child' :: rest')
          end
      end
  end.

(** [for child in e: body(child)], where the body updates the child in
    place or raises. *)
Definition for_children (body : element -> exn + element) (e : element)
  : exn + element :=
  match e with
  | Element t a x c tl =>
      match each_child body c with
      | inl e => inl e
      | inr c' => inr (Element t a x c' tl)
      end
  end.

End ET.

(** ** The build service *)

Inductive request : Type :=
| GET_prj_meta (prj : string)
| PUT_prj_meta (prj : string) (data : bytes)
| GET_packagelist (prj : string).

(** The server behind [osc.conf.config['apiurl']]: what a GET of a
    project's meta answers, what the package listing of a project
    answers, which PUTs it refuses, and the requests received so far. *)
Record obs : Type := mkObs {
  prj_meta : string -> transport_error + bytes;
  packagelist : string -> transport_error + list string;
  put_refused : string -> bytes -> option transport_error;
  log : list request
}.

Inductive outcome (A : Type) : Type :=
| Return (a : A)
| Raise (e : exn)
| OutOfFuel.

Arguments Raise {A} e.
Arguments OutOfFuel {A}.

Definition M (A : Type) : Type := obs -> outcome A * obs.

Definition ret {A} (a : A) : M A := fun s => (Return a, s).

Definition raise {A} (e : exn) : M A := fun s => (Raise e, s).

Definition bind {A B} (c : M A) (k : A -> M B) : M B :=
  fun s =>
    match c s with
    | (Return a, s') => k a s'
    | (Raise e, s') => (Raise e, s')
    | (OutOfFuel, s') => (OutOfFuel, s')
    end.

Definition lift {A} (r : exn + A) : M A :=
  match r with
  | inr a => ret a
  | inl e => raise e
  end.

Notation "x <- c ;; k" := (bind c (fun x => k))
  (at level 61, c at next level, right associativity).

Definition record (r : request) (s : obs) : obs :=
  mkObs (prj_meta s) (packagelist s) (put_refused s) (log s ++ [r]).

(** [osc.core.http_GET(make_meta_url('prj', project_name, apiurl)).read()] *)
Definition http_GET_meta (project_name : string) : M bytes :=
  fun s =>
    match prj_meta s project_name with
    | inr content => (Return content, record (GET_prj_meta project_name) s)
    | inl e => (Raise (Transport e), record (GET_prj_meta project_name) s)
    end.

(** [osc.core.http_PUT(make_meta_url('prj', project_name, apiurl), data)] *)
Definition http_PUT_meta (project_name : string) (data : bytes) : M unit :=
  fun s =>
    match put_refused s project_name data with
    | Some e => (Raise (Transport e), record (PUT_prj_meta project_name data) s)
    | None =>
        (Return tt,
         mkObs (fun n => if String.eqb n project_name then inr data
                         else prj_meta s n)
               (packagelist s) (put_refused s)
               (log s ++ [PUT_prj_meta project_name data]))
    end.

(** [osc.core.meta_get_packagelist(apiurl, prj)] *)
Definition meta_get_packagelist (prj : string) : M (list string) :=
  fun s =>
    match packagelist s prj with
    | inr l => (Return l, record (GET_packagelist prj) s)
    | inl e => (Raise (Transport e), record (GET_packagelist prj) s)
    end.

(** ** The classes *)

Record ProjectMetadata : Type := mkProjectMetadata {
  linked_projects_names : list string
}.

Record RemoteProject : Type := mkRemoteProject {
  name : string;
  metadata : option ProjectMetadata
}.

(** [RemoteProject(name)] *)
Definition RemoteProject_init (name : string) : RemoteProject :=
  mkRemoteProject name None.

(** [result.metadata = m] *)
Definition set_metadata (p : RemoteProject) (m : ProjectMetadata)
  : RemoteProject :=
  mkRemoteProject (name p) (Some m).

(** *** ProjectMetadata.parse *)

Fixpoint parse_children (data : list element) (linked_projects : list string)
  : exn + list string :=
  match data with
  | [] => inr linked_projects
  | child :: rest =>
      if String.eqb (ET.tag child) "link" then
        match Dict.get (ET.attrib child) "project" with
        | Some p => parse_children rest (linked_projects ++ [p])
        | None => inl (KeyError "project")
        end
      else parse_children rest linked_projects
  end.

Definition parse (content : bytes) : exn + ProjectMetadata :=
  match ET.fromstring content with
  | inl e => inl e
  | inr data =>
      match parse_children (ET.children data) [] with
      | inl e => inl e
      | inr linked_projects => inr (mkProjectMetadata linked_projects)
      end
  end.

(** *** ProjectMetadata.load *)

Definition load (project_name : string) : M bytes :=
  fun s =>
    match http_GET_meta project_name s with
    | (Raise (Transport (HTTPError code)), s') =>
        if Z.eqb code 404 then
          (Raise (ProjectNotFound ("Project " ++ project_name ++ " not found")),
           s')
        else (Raise (Transport (HTTPError code)), s')
    | r => r
    end.

(** *** ProjectMetadata.save *)

Definition save (project_name : string) (content : bytes) : M unit :=
  fun s =>
    match http_PUT_meta project_name content s with
    | (Raise (Transport (HTTPError code)), s') =>
        (Raise (Transport (HTTPError code)), s')
    | r => r
    end.

(** *** RemoteProject.find *)

Definition find (name : string) : M RemoteProject :=
  content <- load name ;;
  metadata <- lift (parse content) ;;
  let res := RemoteProject_init name in
  let res := set_metadata res metadata in
  ret res.

(** *** ProjectMetadata.linked_projects

    One unit of fuel is spent per iteration of the [while] loop. *)

(** [p.metadata.attr]: fails on a project whose [metadata] is [None]. *)
Definition metadata_of (p : RemoteProject) (attr : string)
  : M ProjectMetadata :=
  match metadata p with
  | Some m => ret m
  | None =>
      raise (AttributeError
               ("'NoneType' object has no attribute '" ++ attr ++ "'"))
  end.

Fixpoint linked_projects_loop (fuel : nat) (recursive : bool)
  (to_process : list string) (result : list RemoteProject)
  : M (list RemoteProject) :=
  match to_process with
  | [] => ret result
  | name0 :: to_process =>
      match fuel with
      | O => fun s => (OutOfFuel, s)
      | S fuel =>
          if forallb (fun r => negb (String.eqb (name r) name0)) result then
            project <- find name0 ;;
            let result := result ++ [project] in
            if recursive then
              m <- metadata_of project "linked_projects_names" ;;
              linked_projects_loop fuel recursive
                (to_process ++ linked_projects_names m) result
            else linked_projects_loop fuel recursive to_process result
          else linked_projects_loop fuel recursive to_process result
      end
  end.

Definition linked_projects (fuel : nat) (self : ProjectMetadata)
  (recursive : bool) : M (list RemoteProject) :=
  let to_process := linked_projects_names self in
  linked_projects_loop fuel recursive to_process [].

(** ** Packages *)

(** Modelled from the spec: [osclib/remote_package.py] is not among the
    sources.  A package is identified by its [name] within a [project];
    [RemotePackage(pkg_name, project=...)] builds one.  Its method
    [releasename()] is an opaque total function, taken as the variable
    [releasename] of the section below. *)
Module RemotePackage.
Record t : Type := mk { name : string; project : string }.
End RemotePackage.

(** *** The two regular expressions of [_merge_inherited] *)

Definition is_digit (c : ascii) : bool :=
  (Nat.leb 48 (nat_of_ascii c) && Nat.leb (nat_of_ascii c) 57)%bool.

Definition newline : ascii := ascii_of_nat 10.

Fixpoint strip_prefix (p s : string) : option string :=
  match p, s with
  | EmptyString, _ => Some s
  | String a p', String b s' =>
      if Ascii.eqb a b then strip_prefix p' s' else None
  | String _ _, EmptyString => None
  end.

(** [[0-9]*$]: digits up to the end of the string, or up to a newline
    that ends the string (Python's [$] also matches there). *)
Fixpoint digits_to_end (s : string) : bool :=
  match s with
  | EmptyString => true
  | String c rest =>
      if is_digit c then digits_to_end rest
      else (Ascii.eqb c newline && String.eqb rest EmptyString)%bool
  end.

(** [re.compile(r'^patchinfo\.[0-9]+$').match(s)] *)
Definition patchinfo_re (s : string) : bool :=
  match strip_prefix "patchinfo." s with
  | Some (String c rest) => (is_digit c && digits_to_end rest)%bool
  | _ => false
  end.

(** [re.compile(r'^kernel-livepatch-').match(s)] *)
Definition kernel_live_patch_re (s : string) : bool :=
  match strip_prefix "kernel-livepatch-" s with
  | Some _ => true
  | None => false
  end.

Section Packages.

Variable releasename : RemotePackage.t -> string.

(** The first two statements of [get_packages], common to both of its
    branches. *)
Definition package_list (self : RemoteProject) : M (list RemotePackage.t) :=
  pkg_list <- meta_get_packagelist (name self) ;;
  ret (map (fun pkg_name => RemotePackage.mk pkg_name (name self)) pkg_list).

(** The body of the inner [for] loop of [_merge_inherited]; each
    [continue] leaves the dictionary as it is. *)
Definition merge_pkg (merge_dict : Dict.t RemotePackage.t)
  (pkg : RemotePackage.t) : Dict.t RemotePackage.t :=
  if Dict.mem (RemotePackage.name pkg) merge_dict then merge_dict
  else if patchinfo_re (RemotePackage.name pkg) then merge_dict
  else if kernel_live_patch_re (RemotePackage.name pkg) then merge_dict
  else if Dict.mem (releasename pkg) merge_dict then merge_dict
  else Dict.set merge_dict (releasename pkg) pkg.

(** The outer [for] loop; [project.get_packages(inherited = False)] is
    [package_list project]. *)
Fixpoint merge_projects (linked_projects : list RemoteProject)
  (merge_dict : Dict.t RemotePackage.t) : M (Dict.t RemotePackage.t) :=
  match linked_projects with
  | [] => ret merge_dict
  | project :: rest =>
      pkgs <- package_list project ;;
      merge_projects rest (fold_left merge_pkg pkgs merge_dict)
  end.

(** [{ pkg.name: pkg for pkg in res }] *)
Definition dict_by_name (res : list RemotePackage.t) : Dict.t RemotePackage.t :=
  fold_left (fun d pkg => Dict.set d (RemotePackage.name pkg) pkg) res [].

Definition _merge_inherited (res : list RemotePackage.t)
  (linked_projects : list RemoteProject) : M (list RemotePackage.t) :=
  let merge_dict := dict_by_name res in
  merge_dict <- merge_projects linked_projects merge_dict ;;
  ret (Dict.values merge_dict).

Definition get_packages (fuel : nat) (self : RemoteProject) (inherited : bool)
  : M (list RemotePackage.t) :=
  res <- package_list self ;;
  if inherited then
    m <- metadata_of self "linked_projects" ;;
    linked <- linked_projects fuel m true ;;
    _merge_inherited res linked
  else ret res.

End Packages.

(** *** RemoteProject.create_subproject *)

(** Truth value of an optional string argument: [None] and [''] are
    false. *)
Definition truthy (x : option string) : option string :=
  match x with
  | Some (String c r) => Some (String c r)
  | _ => None
  end.

(** The body of [for child in root]. *)
Definition retitle (title description : option string) (child : element)
  : exn + element :=
  match (if String.eqb (ET.tag child) "title" then truthy title else None) with
  | Some t => ET.set_text child t
  | None =>
      match (if String.eqb (ET.tag child) "description"
             then truthy description else None) with
      | Some d => ET.set_text child d
      | None => inr child
      end
  end.

Definition create_subproject (self : RemoteProject) (name0 : string)
  (title description : option string) : M RemoteProject :=
  raw_metadata <- load (name self) ;;
  let fullname := (name self ++ ":" ++ name0)%string in
  root <- lift (ET.fromstring raw_metadata) ;;
  root <- lift (ET.set root "name" fullname) ;;
  root <- lift (ET.for_children (retitle title description) root) ;;
  let modified_metadata := ET.tostring root in
  _ <- save fullname modified_metadata ;;
  let result := RemoteProject_init fullname in
  metadata <- lift (parse modified_metadata) ;;
  let result := set_metadata result metadata in
  ret result.

(** ** Concrete servers, for the examples *)

Definition link (p : string) : element :=
  Element "link" [("project", p)] None [] None.

Definition project_doc (name0 : string) (links : list string) : bytes :=
  Markup (Element "project" [("name", name0)] None
            (Element "title" [] (Some name0) [] None
             :: Element "description" [] None [] None
             :: map link links) None).

(** A server holding the given projects, each with its links and its
    package names; every other project name answers 404. *)
Definition server (projects : list (string * (list string * list string)))
  : obs :=
  mkObs
    (fun n => match Dict.get projects n with
              | Some (links, _) => inr (project_doc n links)
              | None => inl (HTTPError 404)
              end)
    (fun n => match Dict.get projects n with
              | Some (_, pkgs) => inr pkgs
              | None => inl (HTTPError 404)
              end)
    (fun _ _ => None)
    [].

(** The scenario of the wine and foo packages. *)
Definition wine_server : obs :=
  server [("T", (["R1"], ["wine"]));
          ("R1", (["R2"], ["wine"; "patchinfo.42"; "foo"]));
          ("R2", ([], ["foo.99"]))].

(** A release name that drops a numeric maintenance suffix from the two
    incremented names used in the examples. *)
Definition releasename_ex (pkg : RemotePackage.t) : string :=
  if String.eqb (RemotePackage.name pkg) "foo.99" then "foo"
  else if String.eqb (RemotePackage.name pkg) "autoyast2.10233" then "autoyast2"
  else RemotePackage.name pkg.

(** ** Vocabulary of the statements *)

(** The server [s] after the requests [rs] have been logged. *)
Definition logged (s : obs) (rs : list request) : obs :=
  mkObs (prj_meta s) (packagelist s) (put_refused s) (log s ++ rs).

Definition outcome_of {A} (r : exn + A) : outcome A :=
  match r with
  | inr a => Return a
  | inl e => Raise e
  end.

(** What [load] makes of the answer of the server. *)
Definition load_result (answer : transport_error + bytes)
  (project_name : string) : exn + bytes :=
  match answer with
  | inr content => inr content
  | inl (HTTPError code) =>
      if Z.eqb code 404
      then inl (ProjectNotFound ("Project " ++ project_name ++ " not found"))
      else inl (Transport (HTTPError code))
  | inl e => inl (Transport e)
  end.

(** What [find] returns on a server whose metas are [meta]. *)
Definition resolve (meta : string -> transport_error + bytes) (n : string)
  : exn + RemoteProject :=
  match load_result (meta n) n with
  | inl e => inl e
  | inr content =>
      match parse content with
      | inl e => inl e
      | inr m => inr (mkRemoteProject n (Some m))
      end
  end.


(** The server [s] with the meta of project [n] answering the failure
    [e]. *)
Definition with_meta_failure (n : string) (e : transport_error) (s : obs)
  : obs :=
  mkObs (fun k => if String.eqb k n then inl e else prj_meta s k)
        (packagelist s) (put_refused s) (log s).

(** What [create_subproject] leaves of a child of the root: everything
    but the text, and the text too unless the child is a [title] or a
    [description] whose argument is a non-empty string. *)
Definition child_kept (title description : option string) (c c' : element)
  : Prop :=
  ET.tag c' = ET.tag c /\ ET.attrib c' = ET.attrib c /\
  ET.children c' = ET.children c /\ ET.tail c' = ET.tail c /\
  ((ET.tag c = "title" /\
    exists t, title = Some t /\ t <> "" /\ ET.text c' = Some t) \/
   (ET.tag c = "description" /\
    exists d, description = Some d /\ d <> "" /\ ET.text c' = Some d) \/
   (ET.text c' = ET.text c /\
    (ET.tag c = "title" -> title = None \/ title = Some "") /\
    (ET.tag c = "description" ->
     description = None \/ description = Some ""))).

(** The names of [l] that are not in [seen], each at its first
    occurrence. *)
Fixpoint nub_from (seen l : list string) : list string :=
  match l with
  | [] => []
  | x :: l' =>
      if existsb (String.eqb x) seen then nub_from seen l'
      else x :: nub_from (seen ++ [x]) l'
  end.

(** [l] without repetitions, in the order of first occurrence. *)
Definition nub (l : list string) : list string := nub_from [] l.

(** The packages that the projects [linked] offer to the merge, in the
    order in which [_merge_inherited] meets them. *)
Definition candidates (listing : string -> transport_error + list string)
  (linked : list RemoteProject) : list RemotePackage.t :=
  flat_map (fun project =>
              match listing (name project) with
              | inr l => map (fun n => RemotePackage.mk n (name project)) l
              | inl _ => []
              end) linked.

(** An entry that the merge has added to the dictionary [d0] while
    going through [cands]. *)
Definition inherited_entry (releasename : RemotePackage.t -> string)
  (d0 : Dict.t RemotePackage.t) (cands : list RemotePackage.t)
  (kv : string * RemotePackage.t) : Prop :=
  fst kv = releasename (snd kv) /\ In (snd kv) cands /\
  patchinfo_re (RemotePackage.name (snd kv)) = false /\
  kernel_live_patch_re (RemotePackage.name (snd kv)) = false /\
  ~ In (RemotePackage.name (snd kv)) (Dict.keys d0).

(** The names that the meta of project [n] links to; none when [n] does
    not resolve. *)
Definition links_of (meta : string -> transport_error + bytes) (n : string)
  : list string :=
  match resolve meta n with
  | inr (mkRemoteProject _ (Some m)) => linked_projects_names m
  | _ => []
  end.

(** The project names that can be reached from the names [seed] through
    the links of the metas. *)
Inductive reachable (meta : string -> transport_error + bytes)
  (seed : list string) : string -> Prop :=
| reach_seed n : In n seed -> reachable meta seed n
| reach_link n n' :
    reachable meta seed n -> In n' (links_of meta n) -> reachable meta seed n'.

(** The state of the walk of [linked_projects]: the projects in [result]
    are distinct and resolved, every name met so far can be reached from
    the seed, and the seed and the links of the projects in [result] are
    either done or still to be processed. *)
Record walk_inv (meta : string -> transport_error + bytes)
  (seed to_process : list string) (result : list RemoteProject) : Prop :=
  mkWalkInv {
    inv_nodup : NoDup (map name result);
    inv_resolved : Forall (fun r => resolve meta (name r) = inr r) result;
    inv_reach : forall n, In n to_process \/ In n (map name result) ->
                          reachable meta seed n;
    inv_seed : forall n, In n seed ->
                         In n to_process \/ In n (map name result);
    inv_closed : forall r n, In r result -> In n (links_of meta (name r)) ->
                             In n to_process \/ In n (map name result)
  }.

(** The links still to be queued: those of the projects of [universe]
    that are not in [seen]. *)
Definition pending (meta : string -> transport_error + bytes)
  (universe seen : list string) : nat :=
  list_sum (map (fun n => List.length (links_of meta n))
              (filter (fun n => negb (existsb (String.eqb n) seen)) universe)).

(** [find] on each name of [l] in turn, appending to [result]. *)
Fixpoint find_each (l : list string) (result : list RemoteProject)
  : M (list RemoteProject) :=
  match l with
  | [] => ret result
  | n :: l' => project <- find n ;; find_each l' (result ++ [project])
  end.

(** The package [q] of a merged result, made of the packages [own] of
    the project and of the [inherited] ones, holds the key that the
    candidate [c] needs: [q] sits under its name when it is the
    project's own and under its release name when it is inherited, and
    that key is the name or the release name of [c]. *)
Definition collides (releasename : RemotePackage.t -> string)
  (own inherited : list RemotePackage.t) (q c : RemotePackage.t) : Prop :=
  (In q own /\
   (RemotePackage.name q = RemotePackage.name c \/
    RemotePackage.name q = releasename c)) \/
  (In q inherited /\
   (releasename q = RemotePackage.name c \/ releasename q = releasename c)).

(** A project that owns a maintenance-incremented package and links to
    the project that owns the package under its canonical name. *)
Definition alias_server : obs :=
  server [("T", (["R1"], ["autoyast2.10233"]));
          ("R1", ([], ["autoyast2"]))].

(** A linked project with a patchinfo and with kernel live patches. *)
Definition livepatch_server : obs :=
  server [("T", (["R1"], ["wine"]));
          ("R1", ([], ["patchinfo.1002"; "kernel-livepatch-5_3";
                       "kernel-livepatch"]))].

(** [project = RemoteProject.find(name); project.get_packages(inherited)] *)
Definition find_packages (releasename : RemotePackage.t -> string)
  (fuel : nat) (name0 : string) (inherited : bool)
  : M (list RemotePackage.t) :=
  project <- find name0 ;;
  get_packages releasename fuel project inherited.

(** Projects whose links form cycles: [A] links to itself and to [B],
    [B] to [C] and back to [A], [C] back to [B]. *)
Definition cyclic_server : obs :=
  server [("A", (["A"; "B"], ["a"]));
          ("B", (["C"; "A"], ["b"]));
          ("C", (["B"], ["c"]))].

(** A project with a link to [Gone], which does not exist. *)
Definition dangling_server : obs :=
  server [("T", (["R1"; "Gone"], ["wine"]));
          ("R1", ([], ["foo"]))].


(** The entry of [{ pkg.name: pkg for pkg in res }] for the package
    named [n] of the project [owner]. *)
Definition own_entry (owner n : string) : string * RemotePackage.t :=
  (n, RemotePackage.mk n owner).

(** The server [s] with the meta of project [n] set to [content]. *)
Definition with_meta (n : string) (content : bytes) (s : obs) : obs :=
  mkObs (fun k => if String.eqb k n then inr content else prj_meta s k)
        (packagelist s) (put_refused s) (log s).

(** The root that [create_subproject] derives from the root of the
    parent's meta, or the exception that lxml raises on the way. *)
Definition subproject_root (fullname : string)
  (title description : option string) (root : element) : exn + element :=
  match ET.set root "name" fullname with
  | inl e => inl e
  | inr root' => ET.for_children (retitle title description) root'
  end.

(** The argument [arg] of [create_subproject] for the children tagged
    [tag0] can be written: when the root has such a child and the
    argument is a non-empty string, lxml accepts the string. *)
Definition text_fits (tag0 : string) (arg : option string) (root : element)
  : Prop :=
  Exists (fun c => ET.tag c = tag0) (ET.children root) ->
  forall t, truthy arg = Some t -> xml_compatible t = true.

(** Modelled from the spec: [releasename()] is a normalisation that maps
    a package to a canonical identity.  A canonical identity stands for
    itself: a package whose name is the release name of some package has
    that name as its own release name. *)
Definition normalising (releasename : RemotePackage.t -> string) : Prop :=
  forall p q,
    RemotePackage.name q = releasename p ->
    releasename q = RemotePackage.name q.

(** A parent whose link children lack the [project] attribute. *)
Definition broken_link_server : obs :=
  with_meta "T"
    (Markup (Element "project" [("name", "T")] None
               [Element "title" [] None [] None;
                Element "link" [] None [] None] None))
    wine_server.

(** Whether a request writes to the server. *)
Definition is_put (r : request) : bool :=
  match r with
  | PUT_prj_meta _ _ => true
  | _ => false
  end.

(** ** tests/OBSLocal.py: the class Project

    The test fixture writes and reads the metas of the projects of the
    build service that the tests run against; [APIURL] is that server. *)

Module OBSLocal.

(** The Package objects of [self.packages] are kept by name. *)
Record Project : Type := mkProject {
  name : string;
  packages : list string
}.

(** The [groups] and [users] of one role. *)
Record Roles : Type := mkRoles {
  groups : list string;
  users : list string
}.

(** The dictionary that [get_meta] returns. *)
Record Meta : Type := mkMeta {
  reviewer : Roles;
  maintainer : Roles;
  project_links : list string;
  with_repo : bool
}.

(** [d.get(key, [])] *)
Definition get_list (d : Dict.t (list string)) (key : string) : list string :=
  match Dict.get d key with
  | Some l => l
  | None => []
  end.

(** The element [parent] with [child] after its children. *)
Definition append_child (parent child : element) : element :=
  match parent with
  | Element t a x c tl => Element t a x (c ++ [child]) tl
  end.

(** [ET.SubElement(parent, tag, attrib)]: a new child at the end of
    [parent]; lxml checks the attribute values.  The tag and the
    attribute names are constants of the code. *)
Definition SubElement (parent : element) (tag : string)
  (attrib : Dict.t string) : exn + element :=
  if forallb (fun kv => xml_compatible (snd kv)) attrib then
    inr (append_child parent (Element tag attrib None [] None))
  else inl incompatible.

(** [for v in values: ET.SubElement(root, tag, attrib_of(v))] *)
Fixpoint sub_elements (root : element) (tag : string)
  (attrib_of : string -> Dict.t string) (values : list string)
  : exn + element :=
  match values with
  | [] => inr root
  | v :: rest =>
      match SubElement root tag (attrib_of v) with
      | inl e => inl e
      | inr root' => sub_elements root' tag attrib_of rest
      end
  end.

Definition indent (n : nat) : string :=
  String newline (string_of_list_ascii (repeat " "%char n)).

Definition quote : string := String (ascii_of_nat 34) EmptyString.

(** The template of [update_meta] after [format(self.name)]. *)
Definition meta_text (name0 : string) : string :=
  (indent 12 ++ "<project name=" ++ quote ++ name0 ++ quote ++ ">"
   ++ indent 14 ++ "<title></title>"
   ++ indent 14 ++ "<description></description>"
   ++ indent 12 ++ "</project>")%string.

(** The tree of the template for a project named [name0]: what the
    parser makes of [meta_text name0] when the name is plain text.  The
    theorems take this as a hypothesis on the parser. *)
Definition template (name0 : string) : element :=
  Element "project" [("name", name0)] (Some (indent 14))
    [Element "title" [] None [] (Some (indent 14));
     Element "description" [] None [] (Some (indent 12))]
    None.

(** A parser that reads the template of the project [name0] and nothing
    else, for the examples. *)
Definition reads_template (name0 : string) (text : string)
  : exn + element :=
  if String.eqb text (meta_text name0) then inr (template name0)
  else inl XMLSyntaxError.

Definition and_then {A B} (r : exn + A) (k : A -> exn + B) : exn + B :=
  match r with
  | inl e => inl e
  | inr a => k a
  end.

Section Writing.

(** [ET.fromstring] on the text of a document: the parser of lxml. *)
Variable fromstring_text : string -> exn + element.

(** The tree that [update_meta] builds.  The [repository] element gets
    its [arch] child after it has become a child of the root; the root
    sees it, being the same object.  The strings of that branch are
    constants that lxml accepts. *)
Definition update_meta_root (self : Project)
  (reviewer maintainer : Dict.t (list string)) (project_links : list string)
  (with_repo : bool) : exn + element :=
  and_then (fromstring_text (meta_text (name self))) (fun root =>
  and_then (sub_elements root "group"
              (fun group => [("groupid", group); ("role", "reviewer")])
              (get_list reviewer "groups")) (fun root =>
  and_then (sub_elements root "person"
              (fun group => [("userid", group); ("role", "reviewer")])
              (get_list reviewer "users")) (fun root =>
  and_then (sub_elements root "group"
              (fun group => [("groupid", group); ("role", "maintainer")])
              (get_list maintainer "groups")) (fun root =>
  and_then (sub_elements root "person"
              (fun group => [("userid", group); ("role", "maintainer")])
              (get_list maintainer "users")) (fun root =>
  and_then (sub_elements root "link"
              (fun link => [("project", link)]) project_links) (fun root =>
  if with_repo then
    inr (append_child root
           (Element "repository" [("name", "standard")] None
              [Element "arch" [] (Some "x86_64") [] None] None))
  else inr root)))))).

(** [Project.custom_meta] *)
Definition custom_meta (self : Project) (meta : bytes) : M unit :=
  http_PUT_meta (name self) meta.

(** [Project.update_meta] *)
Definition update_meta (self : Project)
  (reviewer maintainer : Dict.t (list string)) (project_links : list string)
  (with_repo : bool) : M unit :=
  root <- lift (update_meta_root self reviewer maintainer project_links
                  with_repo) ;;
  custom_meta self (ET.tostring root).

(** [Project.__init__] *)
Definition init (name0 : string) (reviewer maintainer : Dict.t (list string))
  (project_links : list string) (create with_repo : bool) : M Project :=
  let self := mkProject name0 [] in
  if negb create then ret self
  else
    _ <- update_meta self reviewer maintainer project_links with_repo ;;
    ret self.

End Writing.

(** [meta[role]['groups'].append(x)] *)
Definition add_group (role x : string) (meta : Meta) : Meta :=
  if String.eqb role "reviewer" then
    mkMeta (mkRoles (groups (reviewer meta) ++ [x]) (users (reviewer meta)))
           (maintainer meta) (project_links meta) (with_repo meta)
  else
    mkMeta (reviewer meta)
           (mkRoles (groups (maintainer meta) ++ [x]) (users (maintainer meta)))
           (project_links meta) (with_repo meta).

(** [meta[role]['users'].append(x)] *)
Definition add_user (role x : string) (meta : Meta) : Meta :=
  if String.eqb role "reviewer" then
    mkMeta (mkRoles (groups (reviewer meta)) (users (reviewer meta) ++ [x]))
           (maintainer meta) (project_links meta) (with_repo meta)
  else
    mkMeta (reviewer meta)
           (mkRoles (groups (maintainer meta)) (users (maintainer meta) ++ [x]))
           (project_links meta) (with_repo meta).

(** [child.attrib[key]] *)
Definition attrib_item (child : element) (key : string) : exn + string :=
  match Dict.get (ET.attrib child) key with
  | Some v => inr v
  | None => inl (KeyError key)
  end.

(** [role not in ['reviewer', 'maintainer']] *)
Definition unknown_role (role : string) : bool :=
  negb (String.eqb role "reviewer" || String.eqb role "maintainer").

(** The body of the loop of [get_meta]. *)
Definition get_meta_child (meta : Meta) (child : element) : exn + Meta :=
  if String.eqb (ET.tag child) "repository" then
    inr (mkMeta (reviewer meta) (maintainer meta) (project_links meta) true)
  else if String.eqb (ET.tag child) "link" then
    match attrib_item child "project" with
    | inl e => inl e
    | inr p =>
        inr (mkMeta (reviewer meta) (maintainer meta)
               (project_links meta ++ [p]) (with_repo meta))
    end
  else if String.eqb (ET.tag child) "group" then
    match attrib_item child "role" with
    | inl e => inl e
    | inr role =>
        if unknown_role role then inr meta
        else
          match attrib_item child "groupid" with
          | inl e => inl e
          | inr g => inr (add_group role g meta)
          end
    end
  else if String.eqb (ET.tag child) "person" then
    match attrib_item child "role" with
    | inl e => inl e
    | inr role =>
        if unknown_role role then inr meta
        else
          match attrib_item child "userid" with
          | inl e => inl e
          | inr u => inr (add_user role u meta)
          end
    end
  else inr meta.

Fixpoint get_meta_children (data : list element) (meta : Meta) : exn + Meta :=
  match data with
  | [] => inr meta
  | child :: rest =>
      match get_meta_child meta child with
      | inl e => inl e
      | inr meta => get_meta_children rest meta
      end
  end.

(** [Project.get_meta] *)
Definition get_meta (self : Project) : M Meta :=
  let meta := mkMeta (mkRoles [] []) (mkRoles [] []) [] false in
  content <- http_GET_meta (name self) ;;
  data <- lift (ET.fromstring content) ;;
  lift (get_meta_children (ET.children data) meta).

End OBSLocal.

(** * Properties *)

Unset Implicit Arguments.

(** ** Dictionaries *)

Lemma dict_mem_keys V (k : string) (d : Dict.t V) :
  Dict.mem k d = true <-> In k (Dict.keys d).
Proof.
  induction d as [|[k' v] d IH]; simpl.
  - split; [discriminate | tauto].
  - destruct (String.eqb_spec k' k) as [->|Hne].
    + split; auto.
    + rewrite IH. split; [auto | intros [H|H]; [contradiction | exact H]].
Qed.

Lemma dict_mem_false V (k : string) (d : Dict.t V) :
  Dict.mem k d = false <-> ~ In k (Dict.keys d).
Proof.
  rewrite <- dict_mem_keys. destruct (Dict.mem k d); split; intros H;
    congruence || (exfalso; apply H; reflexivity) || auto.
Qed.

Lemma dict_set_fresh V (k : string) (v : V) (d : Dict.t V) :
  Dict.mem k d = false -> Dict.set d k v = d ++ [(k, v)].
Proof.
  induction d as [|[k' v'] d IH]; simpl; intros H.
  - reflexivity.
  - destruct (String.eqb k' k); [discriminate|]. now rewrite IH.
Qed.

Lemma dict_set_same V (k : string) (v : V) (d : Dict.t V) :
  Dict.get d k = Some v -> Dict.set d k v = d.
Proof.
  induction d as [|[k' v'] d IH]; simpl; intros H.
  - discriminate.
  - destruct (String.eqb k' k).
    + now inversion H.
    + now rewrite IH.
Qed.

Lemma dict_get_in V (k : string) (v : V) (d : Dict.t V) :
  Dict.get d k = Some v -> In (k, v) d.
Proof.
  induction d as [|[k' v'] d IH]; simpl; intros H.
  - discriminate.
  - destruct (String.eqb_spec k' k) as [->|Hne].
    + inversion H. now left.
    + right. auto.
Qed.

(** ** The server only gains log entries *)

Lemma logged_nil s : logged s [] = s.
Proof. destruct s; unfold logged; simpl. now rewrite app_nil_r. Qed.

Lemma logged_logged s a b : logged (logged s a) b = logged s (a ++ b).
Proof. unfold logged; simpl. now rewrite app_assoc. Qed.

Lemma lift_eq A (r : exn + A) s : lift r s = (outcome_of r, s).
Proof. now destruct r. Qed.

Lemma load_eq project_name s :
  load project_name s =
  (outcome_of (load_result (prj_meta s project_name) project_name),
   logged s [GET_prj_meta project_name]).
Proof.
  unfold load, http_GET_meta, load_result.
  destruct (prj_meta s project_name) as [[code|reason]|content]; simpl;
    try reflexivity.
  now destruct (Z.eqb code 404).
Qed.

Lemma find_eq n s :
  find n s = (outcome_of (resolve (prj_meta s) n), logged s [GET_prj_meta n]).
Proof.
  unfold find, bind, resolve. rewrite load_eq.
  destruct (load_result (prj_meta s n) n) as [e|content]; simpl; auto.
  rewrite lift_eq. destruct (parse content); reflexivity.
Qed.

Lemma resolve_name meta n r : resolve meta n = inr r -> name r = n.
Proof.
  unfold resolve. destruct (load_result (meta n) n); [discriminate|].
  destruct (parse b); [discriminate|]. now inversion 1.
Qed.

Lemma package_list_eq self s :
  package_list self s =
  (match packagelist s (name self) with
   | inr l => Return (map (fun n => RemotePackage.mk n (name self)) l)
   | inl e => Raise (Transport e)
   end, logged s [GET_packagelist (name self)]).
Proof.
  unfold package_list, bind, meta_get_packagelist.
  destruct (packagelist s (name self)); reflexivity.
Qed.

(** ** Loading a project's meta *)

(** C8: [load] raises [ProjectNotFound] exactly when the GET fails with
    HTTP status 404; any other failure of the transport reaches the
    caller as it is, a successful answer is returned as it is, and in
    every case the server has received exactly one request. *)
Theorem load_not_found_exactly_on_404 (project_name : string) (s : obs) :
  snd (load project_name s) = logged s [GET_prj_meta project_name] /\
  ((exists msg, fst (load project_name s) = Raise (ProjectNotFound msg))
   <-> prj_meta s project_name = inl (HTTPError 404)) /\
  (forall e, prj_meta s project_name = inl e -> e <> HTTPError 404 ->
             fst (load project_name s) = Raise (Transport e)) /\
  (forall content, prj_meta s project_name = inr content ->
                   fst (load project_name s) = Return content).
Proof.
  rewrite load_eq; simpl. split; [reflexivity|].
  unfold load_result.
  destruct (prj_meta s project_name) as [[code|reason]|content]; simpl.
  - destruct (Z.eqb_spec code 404) as [->|Hne]; simpl.
    + repeat split; eauto; try discriminate.
      intros e He Hne. congruence.
    + repeat split; try discriminate.
      * intros [msg H]; discriminate.
      * intros H; congruence.
      * intros e He _. congruence.
  - repeat split; try discriminate.
    + intros [msg H]; discriminate.
    + intros e He _. congruence.
  - repeat split; try discriminate.
    + intros [msg H]; discriminate.
    + congruence.
Qed.

Lemma load_not_found_exactly_on_404_witness :
  fst (load "R1" (with_meta_failure "R1" (HTTPError 500) wine_server))
  = Raise (Transport (HTTPError 500))
  /\ fst (load "R1" (with_meta_failure "R1" (URLError "timed out") wine_server))
     = Raise (Transport (URLError "timed out"))
  /\ exists msg, fst (load "R3" wine_server) = Raise (ProjectNotFound msg).
Proof.
  split; [|split].
  - apply (proj1 (proj2 (proj2 (load_not_found_exactly_on_404 "R1" _))));
      [reflexivity | discriminate].
  - apply (proj1 (proj2 (proj2 (load_not_found_exactly_on_404 "R1" _))));
      [reflexivity | discriminate].
  - apply (proj1 (proj2 (load_not_found_exactly_on_404 "R3" wine_server))).
    reflexivity.
Defined.

(** ** Listing a project's own packages *)

(** C10: [get_packages] without inheritance does not look at the
    [metadata] of the project: whatever it holds, also [None], the call
    returns one package per listed name, in the order of the listing and
    owned by this project, after the one listing request.  With
    inheritance, a project without metadata fails on reading it. *)
Theorem get_packages_own_ignores_metadata
  (releasename : RemotePackage.t -> string) (fuel : nat) (n : string)
  (m : option ProjectMetadata) (s : obs) (l : list string) :
  packagelist s n = inr l ->
  get_packages releasename fuel (mkRemoteProject n m) false s
  = (Return (map (fun pkg_name => RemotePackage.mk pkg_name n) l),
     logged s [GET_packagelist n])
  /\ exists msg,
      fst (get_packages releasename fuel (RemoteProject_init n) true s)
      = Raise (AttributeError msg).
Proof.
  intros Hl. unfold get_packages, bind. rewrite !package_list_eq; simpl.
  rewrite Hl. split; [reflexivity|]. eexists. reflexivity.
Qed.

Lemma get_packages_own_ignores_metadata_witness :
  get_packages releasename_ex 0 (RemoteProject_init "R1") false wine_server
  = (Return [RemotePackage.mk "wine" "R1"; RemotePackage.mk "patchinfo.42" "R1";
             RemotePackage.mk "foo" "R1"],
     logged wine_server [GET_packagelist "R1"]).
Proof.
  apply (get_packages_own_ignores_metadata releasename_ex 0 "R1" None
           wine_server ["wine"; "patchinfo.42"; "foo"]).
  reflexivity.
Defined.

(** ** Creating a subproject *)

Lemma retitle_kept title description c c' :
  retitle title description c = inr c' ->
  child_kept title description c c'.
Proof.
  assert (Hsame : forall t a x cs tl,
            (t = "title" -> title = None \/ title = Some "") ->
            (t = "description" -> description = None \/ description = Some "") ->
            child_kept title description (Element t a x cs tl)
              (Element t a x cs tl)).
  { intros. unfold child_kept. simpl. repeat split; auto. }
  destruct c as [t a x cs tl]. unfold retitle, ET.set_text.
  cbn [ET.tag].
  destruct (String.eqb_spec t "title") as [->|Hnt].
  - destruct title as [[|c0 r0]|]; cbn [truthy String.eqb Ascii.eqb Bool.eqb].
    + intros H; inversion H; subst. apply Hsame; auto; discriminate.
    + destruct (xml_compatible (String c0 r0)); [|discriminate].
      intros H; inversion H; subst. unfold child_kept. simpl.
      repeat split; auto.
      left. split; [reflexivity|]. eexists; repeat split; discriminate.
    + intros H; inversion H; subst. apply Hsame; auto; discriminate.
  - destruct (String.eqb_spec t "description") as [->|Hnd].
    + destruct description as [[|c0 r0]|]; cbn [truthy].
      * intros H; inversion H; subst. apply Hsame; auto; contradiction.
      * destruct (xml_compatible (String c0 r0)); [|discriminate].
        intros H; inversion H; subst. unfold child_kept. simpl.
        repeat split; auto.
        right; left. split; [reflexivity|].
        eexists; repeat split; discriminate.
      * intros H; inversion H; subst. apply Hsame; auto; contradiction.
    + intros H; inversion H; subst. apply Hsame; auto; contradiction.
Qed.

Lemma retitle_fits title description c :
  (ET.tag c = "title" ->
   forall t, truthy title = Some t -> xml_compatible t = true) ->
  (ET.tag c = "description" ->
   forall t, truthy description = Some t -> xml_compatible t = true) ->
  exists c', retitle title description c = inr c'.
Proof.
  intros Htitle Hdescription. unfold retitle, ET.set_text.
  destruct (String.eqb_spec (ET.tag c) "title") as [Ht|_].
  - destruct (truthy title) as [t|] eqn:Htr.
    + rewrite (Htitle Ht t eq_refl). destruct c; eauto.
    + destruct (String.eqb_spec (ET.tag c) "description") as [Hd|_]; eauto.
      destruct (truthy description) as [d|] eqn:Hdr; eauto.
      rewrite (Hdescription Hd d eq_refl). destruct c; eauto.
  - destruct (String.eqb_spec (ET.tag c) "description") as [Hd|_]; eauto.
    destruct (truthy description) as [d|] eqn:Hdr; eauto.
    rewrite (Hdescription Hd d eq_refl). destruct c; eauto.
Qed.

Lemma each_child_kept title description cs :
  forall cs',
    ET.each_child (retitle title description) cs = inr cs' ->
    Forall2 (child_kept title description) cs cs'.
Proof.
  induction cs as [|c cs IH]; intros cs' H; simpl in H.
  - inversion H. constructor.
  - destruct (retitle title description c) as [e|c'] eqn:Hc; [discriminate|].
    destruct (ET.each_child (retitle title description) cs) as [e|rest];
      [discriminate|].
    inversion H; subst. constructor; [now apply retitle_kept | now apply IH].
Qed.

Lemma each_child_fits title description cs :
  (Exists (fun c => ET.tag c = "title") cs ->
   forall t, truthy title = Some t -> xml_compatible t = true) ->
  (Exists (fun c => ET.tag c = "description") cs ->
   forall t, truthy description = Some t -> xml_compatible t = true) ->
  exists cs', ET.each_child (retitle title description) cs = inr cs'.
Proof.
  induction cs as [|c cs IH]; intros Htitle Hdescription; simpl.
  - eauto.
  - destruct (retitle_fits title description c) as (c' & ->).
    + intros Ht. apply Htitle. now left.
    + intros Hd. apply Hdescription. now left.
    + destruct IH as (cs' & ->).
      * intros H. apply Htitle. now right.
      * intros H. apply Hdescription. now right.
      * eauto.
Qed.

Lemma parse_children_kept title description cs cs' :
  Forall2 (child_kept title description) cs cs' ->
  forall acc, parse_children cs' acc = parse_children cs acc.
Proof.
  induction 1 as [|c c' cs cs' (Ht & Ha & _) _ IH]; intros acc; simpl;
    [reflexivity|].
  rewrite Ht, Ha.
  destruct (String.eqb (ET.tag c) "link"); [|apply IH].
  destruct (Dict.get (ET.attrib c) "project"); [apply IH | reflexivity].
Qed.

(** What the derived root keeps of the root of the parent. *)
Lemma subproject_root_kept fullname title description root root' :
  subproject_root fullname title description root = inr root' ->
  xml_compatible fullname = true /\
  ET.tag root' = ET.tag root /\ ET.text root' = ET.text root /\
  ET.tail root' = ET.tail root /\
  ET.attrib root' = Dict.set (ET.attrib root) "name" fullname /\
  Forall2 (child_kept title description)
    (ET.children root) (ET.children root').
Proof.
  unfold subproject_root, ET.set, ET.for_children.
  destruct (xml_compatible fullname); [|discriminate].
  destruct root as [t a x cs tl].
  destruct (ET.each_child (retitle title description) cs) as [e|cs'] eqn:Hcs;
    [discriminate|].
  intros H. inversion H; subst. simpl. repeat split.
  now apply each_child_kept.
Qed.

Lemma subproject_root_fits fullname title description root :
  xml_compatible fullname = true ->
  text_fits "title" title root ->
  text_fits "description" description root ->
  exists root', subproject_root fullname title description root = inr root'.
Proof.
  intros Hname Htitle Hdescription.
  unfold subproject_root, ET.set, ET.for_children. rewrite Hname.
  destruct root as [t a x cs tl].
  destruct (each_child_fits title description cs Htitle Hdescription)
    as (cs' & ->).
  eauto.
Qed.

Lemma subproject_root_error fullname title description root e :
  subproject_root fullname title description root = inl e ->
  e = incompatible.
Proof.
  assert (Hset : forall c v e0, ET.set_text c v = inl e0 -> e0 = incompatible).
  { intros c v e0. unfold ET.set_text.
    destruct (xml_compatible v); [destruct c; discriminate|].
    now inversion 1. }
  assert (Hretitle : forall c e0,
             retitle title description c = inl e0 -> e0 = incompatible).
  { intros c e0. unfold retitle.
    destruct (if String.eqb (ET.tag c) "title" then truthy title else None);
      [apply Hset|].
    destruct (if String.eqb (ET.tag c) "description"
              then truthy description else None);
      [apply Hset | discriminate]. }
  assert (Heach : forall cs e0,
             ET.each_child (retitle title description) cs = inl e0 ->
             e0 = incompatible).
  { induction cs as [|c cs IH]; intros e0; simpl; [discriminate|].
    destruct (retitle title description c) as [e1|c'] eqn:Hc.
    - intros H; inversion H; subst. now apply Hretitle in Hc.
    - destruct (ET.each_child (retitle title description) cs) as [e1|cs'];
        [|discriminate].
      intros H; inversion H; subst. now apply IH. }
  unfold subproject_root, ET.set, ET.for_children.
  destruct (xml_compatible fullname); [|now inversion 1].
  destruct root as [t a x cs tl].
  destruct (ET.each_child (retitle title description) cs) as [e1|cs'] eqn:Hcs;
    [|discriminate].
  intros H; inversion H; subst. now apply Heach in Hcs.
Qed.

Lemma parse_subproject_root fullname title description root root' :
  subproject_root fullname title description root = inr root' ->
  parse (Markup root') = parse (Markup root).
Proof.
  intros H. apply subproject_root_kept in H.
  destruct H as (_ & _ & _ & _ & _ & Hkept).
  unfold parse. simpl.
  now rewrite (parse_children_kept _ _ _ _ Hkept).
Qed.

(** The run of [create_subproject], outcome by outcome. *)
Lemma create_subproject_eq self name0 title description s :
  let parent := name self in
  let fullname := (parent ++ ":" ++ name0)%string in
  create_subproject self name0 title description s =
  match load_result (prj_meta s parent) parent with
  | inl e => (Raise e, logged s [GET_prj_meta parent])
  | inr (Malformed _) => (Raise XMLSyntaxError, logged s [GET_prj_meta parent])
  | inr (Markup root) =>
      match subproject_root fullname title description root with
      | inl e => (Raise e, logged s [GET_prj_meta parent])
      | inr root' =>
          match put_refused s fullname (Markup root') with
          | Some e =>
              (Raise (Transport e),
               logged s [GET_prj_meta parent;
                         PUT_prj_meta fullname (Markup root')])
          | None =>
              (match parse (Markup root) with
               | inl e => Raise e
               | inr m => Return (mkRemoteProject fullname (Some m))
               end,
               logged (with_meta fullname (Markup root') s)
                 [GET_prj_meta parent; PUT_prj_meta fullname (Markup root')])
          end
      end
  end.
Proof.
  intros parent fullname.
  unfold create_subproject, bind. rewrite load_eq. fold parent.
  destruct (load_result (prj_meta s parent) parent) as [e|[root|raw]];
    try reflexivity.
  cbn [outcome_of lift ET.fromstring ret]. fold fullname.
  unfold subproject_root.
  destruct (ET.set root "name" fullname) as [e|root1] eqn:Hset;
    [reflexivity|].
  cbn [lift ret].
  destruct (ET.for_children (retitle title description) root1)
    as [e|root'] eqn:Hfor; [reflexivity|].
  cbn [lift ret].
  assert (Hroot : subproject_root fullname title description root = inr root')
    by (unfold subproject_root; now rewrite Hset).
  unfold save, http_PUT_meta, ET.tostring.
  cbn [prj_meta packagelist put_refused log logged].
  destruct (put_refused s fullname (Markup root')) as [e|].
  - unfold record, logged. simpl. rewrite <- app_assoc. now destruct e.
  - rewrite lift_eq, (parse_subproject_root _ _ _ _ _ Hroot).
    unfold logged, with_meta. simpl. rewrite <- app_assoc. simpl.
    destruct (parse (Markup root)); reflexivity.
Qed.

(** C9: on a parent whose meta loads and parses, with a full name and
    with texts that lxml accepts and a server that accepts the PUT,
    [create_subproject] returns the project [parent:child] carrying the
    links of the parent, having sent one GET and one PUT and nothing
    else.  The document now stored under [parent:child] is the parent's
    with the [name] attribute of the root set to [parent:child] and,
    child by child, everything kept but the text of a [title] or
    [description] whose argument is a non-empty string; a text differs
    only where the argument of that child was provided; the metas of all
    other projects are as before. *)
Theorem create_subproject_clones_parent
  (self : RemoteProject) (name0 : string) (title description : option string)
  (s : obs) (root : element) (m : ProjectMetadata) :
  let fullname := (name self ++ ":" ++ name0)%string in
  prj_meta s (name self) = inr (Markup root) ->
  parse (Markup root) = inr m ->
  xml_compatible fullname = true ->
  text_fits "title" title root ->
  text_fits "description" description root ->
  (forall root',
     subproject_root fullname title description root = inr root' ->
     put_refused s fullname (Markup root') = None) ->
  exists root' s',
    subproject_root fullname title description root = inr root'
    /\ create_subproject self name0 title description s
       = (Return (mkRemoteProject fullname (Some m)), s')
    /\ log s' = log s ++ [GET_prj_meta (name self);
                          PUT_prj_meta fullname (Markup root')]
    /\ prj_meta s' fullname = inr (Markup root')
    /\ (forall n, n <> fullname -> prj_meta s' n = prj_meta s n)
    /\ parse (Markup root') = inr m
    /\ ET.tag root' = ET.tag root /\ ET.text root' = ET.text root
    /\ ET.tail root' = ET.tail root
    /\ ET.attrib root' = Dict.set (ET.attrib root) "name" fullname
    /\ Forall2 (child_kept title description)
         (ET.children root) (ET.children root')
    /\ Forall2 (fun c c' =>
                  ET.text c' <> ET.text c ->
                  (ET.tag c = "title" /\ title <> None) \/
                  (ET.tag c = "description" /\ description <> None))
         (ET.children root) (ET.children root').
Proof.
  intros fullname Hmeta Hparse Hname Htitle Hdescription Hput.
  destruct (subproject_root_fits fullname title description root
              Hname Htitle Hdescription) as (root' & Hroot).
  destruct (subproject_root_kept _ _ _ _ _ Hroot)
    as (_ & Htag & Htext & Htail & Hattrib & Hkept).
  exists root'. eexists. split; [exact Hroot|]. split.
  { rewrite create_subproject_eq. cbv zeta. rewrite Hmeta.
    cbn [load_result]. fold fullname. rewrite Hroot, (Hput root' Hroot), Hparse.
    reflexivity. }
  cbn [prj_meta log logged with_meta].
  split; [reflexivity|]. split; [now rewrite String.eqb_refl|]. split.
  { intros n Hn. destruct (String.eqb_spec n fullname); [contradiction|].
    reflexivity. }
  split; [now rewrite (parse_subproject_root _ _ _ _ _ Hroot)|].
  repeat (split; [assumption|]).
  eapply Forall2_impl; [|exact Hkept].
  intros c c' (_ & _ & _ & _ & [(Ht & t & -> & _)|[(Hd & d & -> & _)|(Hsame & _)]])
    Hdiff.
  - left. split; [exact Ht | discriminate].
  - right. split; [exact Hd | discriminate].
  - contradiction.
Qed.

Lemma create_subproject_clones_parent_witness :
  exists root' s',
    create_subproject (RemoteProject_init "T") "sub" (Some "Sub") (Some "")
      wine_server
    = (Return (mkRemoteProject "T:sub" (Some (mkProjectMetadata ["R1"]))), s')
    /\ prj_meta s' "T:sub" = inr (Markup root')
    /\ root' = Element "project" [("name", "T:sub")] None
                 [Element "title" [] (Some "Sub") [] None;
                  Element "description" [] None [] None;
                  link "R1"] None.
Proof.
  destruct (create_subproject_clones_parent (RemoteProject_init "T") "sub"
              (Some "Sub") (Some "") wine_server
              (Element "project" [("name", "T")] None
                 [Element "title" [] (Some "T") [] None;
                  Element "description" [] None [] None;
                  link "R1"] None)
              (mkProjectMetadata ["R1"])
              eq_refl eq_refl eq_refl)
    as (root' & s' & Hroot & Hrun & _ & Hstored & _).
  - intros _ t H. inversion H. reflexivity.
  - intros _ t H. discriminate.
  - intros root' _. reflexivity.
  - exists root', s'. split; [exact Hrun|]. split; [exact Hstored|].
    vm_compute in Hroot. now inversion Hroot.
Defined.

(** ** First occurrences *)

Lemma existsb_eqb_in x (l : list string) :
  existsb (String.eqb x) l = true <-> In x l.
Proof.
  rewrite existsb_exists. split.
  - intros (y & Hy & Heq). apply String.eqb_eq in Heq. now subst.
  - intros H. exists x. split; [exact H | apply String.eqb_refl].
Qed.

Lemma existsb_eqb_not_in x (l : list string) :
  existsb (String.eqb x) l = false <-> ~ In x l.
Proof.
  rewrite <- existsb_eqb_in. destruct (existsb (String.eqb x) l); split;
    intros H; congruence || (exfalso; apply H; reflexivity) || auto.
Qed.

Lemma nub_from_in seen l x :
  In x (nub_from seen l) <-> In x l /\ ~ In x seen.
Proof.
  revert seen. induction l as [|y l IH]; intros seen; simpl.
  - tauto.
  - destruct (existsb (String.eqb y) seen) eqn:Hy.
    + apply existsb_eqb_in in Hy. rewrite IH. split.
      * tauto.
      * intros [[->|H] Hn]; [contradiction | tauto].
    + apply existsb_eqb_not_in in Hy. simpl. rewrite IH, in_app_iff. simpl.
      split.
      * intros [->|[H Hn]]; [tauto|]. split; [tauto|]. tauto.
      * intros [[->|H] Hn]; [tauto|].
        destruct (string_dec y x) as [->|Hne]; [tauto|]. right.
        split; [exact H|]. intros [H'|[H'|[]]]; tauto.
Qed.

Lemma nub_from_nodup seen l : NoDup (nub_from seen l).
Proof.
  revert seen. induction l as [|y l IH]; intros seen; simpl.
  - constructor.
  - destruct (existsb (String.eqb y) seen); [apply IH|].
    constructor; [|apply IH].
    rewrite nub_from_in, in_app_iff. simpl. tauto.
Qed.

(** ** The merge *)

Section MergeFacts.

Variable releasename : RemotePackage.t -> string.

Lemma merge_pkg_cases d pkg :
  merge_pkg releasename d pkg = d \/
  (merge_pkg releasename d pkg = d ++ [(releasename pkg, pkg)] /\
   Dict.mem (RemotePackage.name pkg) d = false /\
   patchinfo_re (RemotePackage.name pkg) = false /\
   kernel_live_patch_re (RemotePackage.name pkg) = false /\
   Dict.mem (releasename pkg) d = false).
Proof.
  unfold merge_pkg.
  destruct (Dict.mem (RemotePackage.name pkg) d); [now left|].
  destruct (patchinfo_re (RemotePackage.name pkg)); [now left|].
  destruct (kernel_live_patch_re (RemotePackage.name pkg)); [now left|].
  destruct (Dict.mem (releasename pkg) d) eqn:Hrn; [now left|].
  right. rewrite dict_set_fresh by exact Hrn. auto.
Qed.

Lemma keys_app V (d e : Dict.t V) :
  Dict.keys (d ++ e) = Dict.keys d ++ Dict.keys e.
Proof. unfold Dict.keys. apply map_app. Qed.

Lemma values_app V (d e : Dict.t V) :
  Dict.values (d ++ e) = Dict.values d ++ Dict.values e.
Proof. unfold Dict.values. apply map_app. Qed.

Lemma merge_fold_spec cands d :
  exists added,
    fold_left (merge_pkg releasename) cands d = d ++ added /\
    Forall (inherited_entry releasename d cands) added /\
    (NoDup (Dict.keys d) -> NoDup (Dict.keys (d ++ added))).
Proof.
  revert d. induction cands as [|c cands IH]; intros d; simpl.
  - exists []. rewrite app_nil_r. auto.
  - destruct (merge_pkg_cases d c) as [->|(-> & Hname & Hpi & Hklp & Hrn)].
    + destruct (IH d) as (added & Heq & Hall & Hnd).
      exists added. repeat split; auto.
      eapply Forall_impl; [|exact Hall].
      intros kv (H1 & H2 & H3 & H4 & H5). repeat split; auto. now right.
    + destruct (IH (d ++ [(releasename c, c)])) as (added & Heq & Hall & Hnd).
      exists ((releasename c, c) :: added). rewrite Heq, <- app_assoc.
      repeat split; auto.
      * constructor.
        -- repeat split; simpl; auto. now apply dict_mem_false.
        -- eapply Forall_impl; [|exact Hall].
           intros kv (H1 & H2 & H3 & H4 & H5). repeat split; auto.
           ++ now right.
           ++ intros Hin. apply H5. rewrite keys_app, in_app_iff. now left.
      * intros Hd. change ((releasename c, c) :: added)
          with ([(releasename c, c)] ++ added).
        rewrite app_assoc. apply Hnd. rewrite keys_app. simpl.
        apply NoDup_app; [exact Hd | repeat constructor; simpl; tauto |].
        intros a Ha [<-|[]]. apply dict_mem_false in Hrn. contradiction.
Qed.

Lemma merge_fold_keeps cands d kv :
  In kv d -> In kv (fold_left (merge_pkg releasename) cands d).
Proof.
  intros H. destruct (merge_fold_spec cands d) as (added & -> & _).
  apply in_or_app. now left.
Qed.

Lemma dict_mem_entry V (k : string) (d : Dict.t V) :
  Dict.mem k d = true -> exists v, In (k, v) d.
Proof.
  intros H. apply dict_mem_keys in H. unfold Dict.keys in H.
  apply in_map_iff in H. destruct H as ([k' v] & Hk & Hin). simpl in Hk.
  subst. eauto.
Qed.

Lemma in_values V (k : string) (v : V) (d : Dict.t V) :
  In (k, v) d -> In v (Dict.values d).
Proof. intros H. unfold Dict.values. change v with (snd (k, v)).
       now apply in_map. Qed.

(** A candidate is in the result unless a pattern excludes it or an
    entry for another package sits under its name or its release name. *)
Lemma merge_fold_present cands d c :
  In c cands ->
  In c (Dict.values (fold_left (merge_pkg releasename) cands d)) \/
  patchinfo_re (RemotePackage.name c) = true \/
  kernel_live_patch_re (RemotePackage.name c) = true \/
  exists q, q <> c /\
    (In (RemotePackage.name c, q) (fold_left (merge_pkg releasename) cands d) \/
     In (releasename c, q) (fold_left (merge_pkg releasename) cands d)).
Proof.
  revert d. induction cands as [|a cands IH]; intros d Hin; simpl.
  - contradiction.
  - destruct Hin as [->|Hin]; [|now apply IH].
    assert (Hpkg_eq : forall x y : RemotePackage.t, {x = y} + {x <> y}).
    { decide equality; apply string_dec. }
    unfold merge_pkg at 2 4 6.
    destruct (Dict.mem (RemotePackage.name c) d) eqn:Hname.
    { apply dict_mem_entry in Hname. destruct Hname as (q & Hq).
      destruct (Hpkg_eq q c) as [->|Hne].
      - left. eapply in_values. apply merge_fold_keeps. exact Hq.
      - right; right; right. exists q. split; [exact Hne|]. left.
        now apply merge_fold_keeps. }
    destruct (patchinfo_re (RemotePackage.name c)); [now right; left|].
    destruct (kernel_live_patch_re (RemotePackage.name c));
      [now right; right; left|].
    destruct (Dict.mem (releasename c) d) eqn:Hrn.
    { apply dict_mem_entry in Hrn. destruct Hrn as (q & Hq).
      destruct (Hpkg_eq q c) as [->|Hne].
      - left. eapply in_values. apply merge_fold_keeps. exact Hq.
      - right; right; right. exists q. split; [exact Hne|]. right.
        now apply merge_fold_keeps. }
    left. eapply in_values. apply merge_fold_keeps.
    rewrite dict_set_fresh by exact Hrn. apply in_or_app. right. now left.
Qed.

End MergeFacts.

(** ** The walk over the links *)

Lemma not_seen_iff (n : string) (result : list RemoteProject) :
  forallb (fun r => negb (String.eqb (name r) n)) result
  = negb (existsb (String.eqb n) (map name result)).
Proof.
  induction result as [|r result IH]; simpl; [reflexivity|].
  rewrite IH, negb_orb. now rewrite (String.eqb_sym n (name r)).
Qed.

Lemma resolve_links meta n r m :
  resolve meta n = inr r -> metadata r = Some m ->
  links_of meta n = linked_projects_names m.
Proof.
  intros Hr Hm. unfold links_of. rewrite Hr. destruct r as [n' [m'|]];
    simpl in Hm; [now inversion Hm | discriminate].
Qed.

Lemma resolve_metadata meta n r :
  resolve meta n = inr r -> exists m, metadata r = Some m.
Proof.
  unfold resolve. destruct (load_result (meta n) n); [discriminate|].
  destruct (parse b); [discriminate|]. inversion 1. simpl. eauto.
Qed.

Section Walk.

Variable meta : string -> transport_error + bytes.
Variable seed : list string.

Lemma walk_inv_init : walk_inv meta seed seed [].
Proof.
  constructor; simpl.
  - constructor.
  - constructor.
  - intros n [H|[]]. now apply reach_seed.
  - auto.
  - intros r n [].
Qed.

Lemma walk_inv_skip n to_process result :
  walk_inv meta seed (n :: to_process) result ->
  In n (map name result) ->
  walk_inv meta seed to_process result.
Proof.
  intros [H1 H2 H3 H4 H5] Hin. constructor; auto.
  - intros k [H|H]; apply H3; simpl; auto.
  - intros k Hk. destruct (H4 k Hk) as [[<-|H]|H]; auto.
  - intros r k Hr Hk. destruct (H5 r k Hr Hk) as [[<-|H]|H]; auto.
Qed.

Lemma walk_inv_visit n to_process result r m :
  walk_inv meta seed (n :: to_process) result ->
  ~ In n (map name result) ->
  resolve meta n = inr r -> metadata r = Some m ->
  walk_inv meta seed (to_process ++ linked_projects_names m) (result ++ [r]).
Proof.
  intros [H1 H2 H3 H4 H5] Hnew Hr Hm.
  pose proof (resolve_name _ _ _ Hr) as Hname.
  pose proof (resolve_links _ _ _ _ Hr Hm) as Hlinks.
  assert (Hn : reachable meta seed n) by (apply H3; simpl; auto).
  constructor.
  - rewrite map_app. simpl. rewrite Hname.
    apply NoDup_app; [exact H1 | repeat constructor; simpl; tauto |].
    intros a Ha [<-|[]]. contradiction.
  - apply Forall_app. split; [exact H2|]. constructor; [|constructor].
    now rewrite Hname.
  - intros k Hk. rewrite map_app, !in_app_iff in Hk. simpl in Hk.
    destruct Hk as [[Hk|Hk]|[Hk|[Hk|[]]]].
    + apply H3. simpl. auto.
    + apply reach_link with n; [exact Hn | now rewrite Hlinks].
    + apply H3. auto.
    + rewrite Hname in Hk. now subst.
  - intros k Hk. rewrite map_app, !in_app_iff. simpl. rewrite Hname.
    destruct (H4 k Hk) as [[<-|H]|H]; auto.
  - intros r' k Hr' Hk. rewrite map_app, !in_app_iff. simpl. rewrite Hname.
    apply in_app_iff in Hr'. destruct Hr' as [Hr'|[<-|[]]].
    + destruct (H5 r' k Hr' Hk) as [[<-|H]|H]; auto.
    + rewrite Hname, Hlinks in Hk. auto.
Qed.

(** Once the work list is empty, the result holds exactly the reachable
    names. *)
Lemma walk_inv_done result n :
  walk_inv meta seed [] result ->
  reachable meta seed n <-> In n (map name result).
Proof.
  intros [H1 H2 H3 H4 H5]. split.
  - induction 1 as [k Hk|k k' Hk IH Hlink].
    + destruct (H4 k Hk) as [[]|H]; exact H.
    + apply in_map_iff in IH. destruct IH as (r & <- & Hr).
      destruct (H5 r k' Hr Hlink) as [[]|H]; exact H.
  - intros H. apply H3. now right.
Qed.

Lemma walk_spec fuel :
  forall to_process result s o s',
    prj_meta s = meta ->
    walk_inv meta seed to_process result ->
    linked_projects_loop fuel true to_process result s = (o, s') ->
    exists fetched,
      s' = logged s (map GET_prj_meta fetched) /\
      NoDup (map name result ++ fetched) /\
      (forall n, In n fetched -> reachable meta seed n) /\
      (forall res, o = Return res ->
                   map name res = map name result ++ fetched /\
                   walk_inv meta seed [] res).
Proof.
  assert (Hstop : forall to_process result s o,
             walk_inv meta seed to_process result ->
             (forall res, o = Return res -> res = result /\ to_process = []) ->
             exists fetched,
               s = logged s (map GET_prj_meta fetched) /\
               NoDup (map name result ++ fetched) /\
               (forall n, In n fetched -> reachable meta seed n) /\
               (forall res, o = Return res ->
                            map name res = map name result ++ fetched /\
                            walk_inv meta seed [] res)).
  { intros to_process result s o Hinv Hres. exists []. simpl.
    rewrite logged_nil, app_nil_r.
    split; [reflexivity|]. split; [apply (inv_nodup Hinv)|].
    split; [contradiction|].
    intros res H. destruct (Hres res H) as [-> ->]. split; [reflexivity|].
    exact Hinv. }
  induction fuel as [|fuel IH]; intros to_process result s o s' Hs Hinv Hrun.
  - destruct to_process as [|n to_process]; simpl in Hrun;
      inversion Hrun; subst; apply (Hstop _ _ _ _ Hinv).
    + intros res H. inversion H. auto.
    + discriminate.
  - destruct to_process as [|n to_process]; simpl in Hrun.
    { inversion Hrun; subst. apply (Hstop _ _ _ _ Hinv).
      intros res H. inversion H. auto. }
    rewrite not_seen_iff in Hrun.
    destruct (existsb (String.eqb n) (map name result)) eqn:Hseen;
      simpl in Hrun.
    { apply existsb_eqb_in in Hseen.
      apply (IH _ _ _ _ _ Hs (walk_inv_skip _ _ _ Hinv Hseen) Hrun). }
    apply existsb_eqb_not_in in Hseen.
    assert (Hn : reachable meta seed n)
      by (apply (inv_reach Hinv); simpl; auto).
    unfold bind in Hrun. rewrite find_eq, Hs in Hrun.
    destruct (resolve meta n) as [e|r] eqn:Hr; simpl in Hrun.
    { exists [n]. inversion Hrun; subst.
      split; [reflexivity|]. split; [|split].
      - apply NoDup_app; [apply (inv_nodup Hinv)
                         | repeat constructor; simpl; tauto |].
        intros a Ha [<-|[]]. contradiction.
      - intros k [<-|[]]. exact Hn.
      - discriminate. }
    destruct (resolve_metadata _ _ _ Hr) as (m & Hm).
    unfold metadata_of in Hrun. rewrite Hm in Hrun. simpl in Hrun.
    pose proof (resolve_name _ _ _ Hr) as Hname.
    assert (Hs' : prj_meta (logged s [GET_prj_meta n]) = meta) by exact Hs.
    destruct (IH _ _ _ _ _ Hs' (walk_inv_visit _ _ _ _ _ Hinv Hseen Hr Hm) Hrun)
      as (fetched & Hlog & Hnd & Hreach & Hret).
    rewrite map_app in Hnd, Hret. simpl in Hnd, Hret.
    rewrite Hname, <- app_assoc in Hnd, Hret. simpl in Hnd, Hret.
    exists (n :: fetched). split; [|split; [|split]].
    + now rewrite Hlog, logged_logged.
    + exact Hnd.
    + intros k [<-|Hk]; auto.
    + exact Hret.
Qed.

End Walk.

(** ** Termination of the walk *)

Lemma pending_not_in meta universe seen n :
  ~ In n universe ->
  pending meta universe (seen ++ [n]) = pending meta universe seen.
Proof.
  unfold pending. induction universe as [|x universe IH]; intros Hn; simpl.
  - reflexivity.
  - assert (Hx : existsb (String.eqb x) (seen ++ [n])
                 = existsb (String.eqb x) seen).
    { rewrite existsb_app. simpl.
      destruct (String.eqb_spec x n) as [->|_].
      - exfalso. apply Hn. now left.
      - now rewrite !orb_false_r. }
    rewrite Hx.
    destruct (negb (existsb (String.eqb x) seen)); simpl;
      rewrite IH; auto; intros H; apply Hn; now right.
Qed.

Lemma pending_visit meta universe seen n :
  NoDup universe -> In n universe -> ~ In n seen ->
  pending meta universe seen
  = List.length (links_of meta n) + pending meta universe (seen ++ [n]).
Proof.
  intros Hnd. revert n. induction Hnd as [|x universe Hx Hnd IH];
    intros n Hin Hseen.
  - contradiction.
  - destruct (string_dec x n) as [->|Hne].
    + pose proof (pending_not_in meta universe seen n Hx) as Hrest.
      unfold pending in *. simpl.
      apply existsb_eqb_not_in in Hseen. rewrite Hseen. simpl.
      rewrite existsb_app. simpl. rewrite String.eqb_refl, orb_true_r. simpl.
      now rewrite Hrest.
    + destruct Hin as [Heq|Hin]; [contradiction|].
      specialize (IH n Hin Hseen). unfold pending in *. simpl.
      rewrite existsb_app. simpl.
      destruct (String.eqb_spec x n) as [Heq|_]; [contradiction|].
      rewrite !orb_false_r.
      destruct (negb (existsb (String.eqb x) seen)); simpl; lia.
Qed.

Lemma walk_terminates meta universe :
  NoDup universe ->
  (forall n r, resolve meta n = inr r -> In n universe) ->
  forall fuel to_process result s,
    prj_meta s = meta ->
    List.length to_process + pending meta universe (map name result) <= fuel ->
    fst (linked_projects_loop fuel true to_process result s) <> OutOfFuel.
Proof.
  intros Hnd Hfin. induction fuel as [|fuel IH];
    intros to_process result s Hs Hfuel.
  - destruct to_process; simpl in *; [discriminate | lia].
  - destruct to_process as [|n to_process]; simpl; [discriminate|].
    rewrite not_seen_iff.
    destruct (existsb (String.eqb n) (map name result)) eqn:Hseen; simpl.
    { apply IH; [exact Hs | simpl in Hfuel; lia]. }
    apply existsb_eqb_not_in in Hseen.
    unfold bind. rewrite find_eq, Hs.
    destruct (resolve meta n) as [e|r] eqn:Hr; simpl; [discriminate|].
    destruct (resolve_metadata _ _ _ Hr) as (m & Hm).
    unfold metadata_of. rewrite Hm. simpl.
    apply IH; [exact Hs|].
    rewrite map_app. simpl. rewrite (resolve_name _ _ _ Hr).
    rewrite length_app, <- (resolve_links _ _ _ _ Hr Hm).
    pose proof (pending_visit meta universe (map name result) n Hnd
                  (Hfin _ _ Hr) Hseen).
    simpl in Hfuel. lia.
Qed.

(** ** The walk without recursion *)

Lemma walk_flat to_process :
  forall fuel result s,
    List.length to_process <= fuel ->
    linked_projects_loop fuel false to_process result s
    = find_each (nub_from (map name result) to_process) result s.
Proof.
  induction to_process as [|n to_process IH]; intros fuel result s Hfuel.
  - destruct fuel; reflexivity.
  - destruct fuel as [|fuel]; simpl in Hfuel; [lia|]. simpl.
    rewrite not_seen_iff.
    destruct (existsb (String.eqb n) (map name result)) eqn:Hseen; simpl.
    { apply IH. lia. }
    unfold bind. rewrite find_eq.
    destruct (resolve (prj_meta s) n) as [e|r] eqn:Hr; simpl; [reflexivity|].
    rewrite IH by lia. rewrite map_app. simpl.
    now rewrite (resolve_name _ _ _ Hr).
Qed.

Lemma find_each_spec l :
  forall result s,
  exists fetched rest o,
    l = fetched ++ rest /\
    find_each l result s = (o, logged s (map GET_prj_meta fetched)) /\
    o <> OutOfFuel /\
    (forall res, o = Return res ->
       rest = [] /\
       exists found, res = result ++ found /\ map name found = l /\
         Forall (fun r => resolve (prj_meta s) (name r) = inr r) found) /\
    (forall e, o = Raise e ->
       exists pre n, fetched = pre ++ [n] /\
                     resolve (prj_meta s) n = inl e).
Proof.
  induction l as [|n l IH]; intros result s; simpl.
  - exists [], [], (Return result). simpl. rewrite logged_nil.
    split; [reflexivity|]. split; [reflexivity|]. split; [discriminate|].
    split; [|discriminate].
    intros res H. inversion H; subst. split; [reflexivity|].
    exists []. rewrite app_nil_r. auto.
  - unfold bind. rewrite find_eq.
    destruct (resolve (prj_meta s) n) as [e|r] eqn:Hr; simpl.
    + exists [n], l, (Raise e). simpl.
      split; [reflexivity|]. split; [reflexivity|]. split; [discriminate|].
      split; [discriminate|].
      intros e' H. inversion H; subst. exists [], n. auto.
    + destruct (IH (result ++ [r]) (logged s [GET_prj_meta n]))
        as (fetched & rest & o & Hl & Hrun & Hfuel & Hret & Hraise).
      exists (n :: fetched), rest, o. simpl.
      split; [now rewrite Hl|]. split; [now rewrite Hrun, logged_logged|].
      split; [exact Hfuel|]. split.
      * intros res H. destruct (Hret res H) as (-> & found & -> & Hn & Hall).
        split; [reflexivity|]. exists (r :: found).
        rewrite <- app_assoc. simpl. split; [reflexivity|].
        split; [now rewrite Hn, (resolve_name _ _ _ Hr)|].
        constructor; [now rewrite (resolve_name _ _ _ Hr) | exact Hall].
      * intros e H. destruct (Hraise e H) as (pre & k & -> & Hk).
        exists (n :: pre), k. auto.
Qed.

(** ** Reaching a name that does not exist *)

Lemma walk_hits_missing meta missing :
  meta missing = inl (HTTPError 404) ->
  forall pre fuel result rest s,
    prj_meta s = meta ->
    List.length pre < fuel ->
    Forall (fun n => exists r, resolve meta n = inr r) pre ->
    Forall (fun r => resolve meta (name r) = inr r) result ->
    fst (linked_projects_loop fuel true (pre ++ missing :: rest) result s)
    = Raise (ProjectNotFound ("Project " ++ missing ++ " not found")).
Proof.
  intros Hmissing.
  assert (Hres : resolve meta missing
                 = inl (ProjectNotFound ("Project " ++ missing ++ " not found"))).
  { unfold resolve. now rewrite Hmissing. }
  induction pre as [|n pre IH]; intros fuel result rest s Hs Hfuel Hpre Hall;
    (destruct fuel as [|fuel]; simpl in Hfuel; [lia|]); simpl;
    rewrite not_seen_iff.
  - destruct (existsb (String.eqb missing) (map name result)) eqn:Hseen; simpl.
    { apply existsb_eqb_in in Hseen. apply in_map_iff in Hseen.
      destruct Hseen as (r & Hname & Hr).
      rewrite Forall_forall in Hall. specialize (Hall r Hr).
      rewrite Hname in Hall. congruence. }
    unfold bind. rewrite find_eq, Hs, Hres. reflexivity.
  - inversion Hpre as [|? ? (r & Hr) Hpre']; subst.
    destruct (existsb (String.eqb n) (map name result)) eqn:Hseen; simpl.
    { apply IH; auto. lia. }
    unfold bind. rewrite find_eq, Hr. simpl.
    destruct (resolve_metadata _ _ _ Hr) as (m & Hm).
    unfold metadata_of. rewrite Hm. simpl.
    rewrite <- app_assoc. simpl. apply IH; auto; [lia|].
    apply Forall_app. split; [exact Hall|]. constructor; [|constructor].
    now rewrite (resolve_name _ _ _ Hr).
Qed.

(** ** The packages of the project itself *)

Section OwnPackages.

Variable owner : string.

Lemma own_entries_get seen n :
  In n seen ->
  Dict.get (map (own_entry owner) seen) n = Some (RemotePackage.mk n owner).
Proof.
  induction seen as [|x seen IH]; simpl; intros H; [contradiction|].
  destruct (String.eqb_spec x n) as [->|Hne]; [reflexivity|].
  destruct H as [H|H]; [contradiction | auto].
Qed.

Lemma own_entries_keys seen : Dict.keys (map (own_entry owner) seen) = seen.
Proof.
  unfold Dict.keys. rewrite map_map. simpl. apply map_id.
Qed.

Lemma own_entries_values seen :
  Dict.values (map (own_entry owner) seen)
  = map (fun n => RemotePackage.mk n owner) seen.
Proof. unfold Dict.values. now rewrite map_map. Qed.

Lemma dict_by_name_from l :
  forall seen,
    fold_left (fun d pkg => Dict.set d (RemotePackage.name pkg) pkg)
      (map (fun n => RemotePackage.mk n owner) l) (map (own_entry owner) seen)
    = map (own_entry owner) (seen ++ nub_from seen l).
Proof.
  induction l as [|x l IH]; intros seen; simpl.
  - now rewrite app_nil_r.
  - destruct (existsb (String.eqb x) seen) eqn:Hx.
    + apply existsb_eqb_in in Hx.
      rewrite dict_set_same by now apply own_entries_get.
      apply IH.
    + apply existsb_eqb_not_in in Hx.
      rewrite dict_set_fresh
        by (apply dict_mem_false; now rewrite own_entries_keys).
      change (map (own_entry owner) seen ++ [(x, RemotePackage.mk x owner)])
        with (map (own_entry owner) seen ++ map (own_entry owner) [x]).
      rewrite <- map_app, IH, <- app_assoc. reflexivity.
Qed.

Lemma dict_by_name_own l :
  dict_by_name (map (fun n => RemotePackage.mk n owner) l)
  = map (own_entry owner) (nub l).
Proof. apply (dict_by_name_from l []). Qed.

End OwnPackages.

(** ** The candidates of the merge *)

Lemma candidates_in listing linked c :
  In c (candidates listing linked) <->
  exists project l,
    In project linked /\ listing (name project) = inr l /\
    In (RemotePackage.name c) l /\
    c = RemotePackage.mk (RemotePackage.name c) (name project).
Proof.
  unfold candidates. rewrite in_flat_map. split.
  - intros (project & Hp & Hc). exists project.
    destruct (listing (name project)) as [e|l]; [contradiction|].
    exists l. apply in_map_iff in Hc. destruct Hc as (n & <- & Hn). auto.
  - intros (project & l & Hp & Hl & Hn & Hc). exists project.
    split; [exact Hp|]. rewrite Hl, Hc. simpl.
    apply in_map_iff. eauto.
Qed.

Lemma merge_projects_return releasename linked :
  forall d s d' s',
    merge_projects releasename linked d s = (Return d', s') ->
    d' = fold_left (merge_pkg releasename)
           (candidates (packagelist s) linked) d.
Proof.
  induction linked as [|project linked IH]; intros d s d' s' Hrun;
    simpl in Hrun.
  - now inversion Hrun.
  - unfold bind in Hrun. rewrite package_list_eq in Hrun.
    unfold candidates. simpl.
    destruct (packagelist s (name project)) as [e|l]; [discriminate|].
    rewrite fold_left_app. apply IH in Hrun. exact Hrun.
Qed.

(** What a successful [get_packages] with inheritance has gone through. *)
Lemma get_packages_inherited_inv releasename fuel self s pkgs s' :
  get_packages releasename fuel self true s = (Return pkgs, s') ->
  exists m l linked,
    metadata self = Some m /\
    packagelist s (name self) = inr l /\
    (forall n, reachable (prj_meta s) (linked_projects_names m) n
               <-> In n (map name linked)) /\
    pkgs = Dict.values
             (fold_left (merge_pkg releasename)
                (candidates (packagelist s) linked)
                (dict_by_name
                   (map (fun n => RemotePackage.mk n (name self)) l))).
Proof.
  unfold get_packages, bind. rewrite package_list_eq.
  destruct (packagelist s (name self)) as [e|l] eqn:Hl; [discriminate|].
  unfold metadata_of. destruct (metadata self) as [m|]; [|discriminate].
  simpl.
  set (s1 := logged s [GET_packagelist (name self)]).
  unfold linked_projects.
  destruct (linked_projects_loop fuel true (linked_projects_names m) [] s1)
    as [o s2] eqn:Hwalk.
  destruct o as [linked| |]; try discriminate.
  intros Hmerge.
  destruct (walk_spec (prj_meta s) (linked_projects_names m) fuel
              _ _ s1 _ _ eq_refl
              (walk_inv_init (prj_meta s) (linked_projects_names m)) Hwalk)
    as (fetched & Hs2 & _ & _ & Hret).
  destruct (Hret linked eq_refl) as (_ & Hinv).
  exists m, l, linked. split; [reflexivity|]. split; [reflexivity|].
  split.
  - intros n. apply walk_inv_done. exact Hinv.
  - unfold _merge_inherited, bind in Hmerge.
    destruct (merge_projects releasename linked _ s2) as [o s3] eqn:Hm.
    destruct o as [d| |]; try discriminate.
    apply merge_projects_return in Hm. inversion Hmerge; subst.
    reflexivity.
Qed.

Lemma inherited_keys releasename d0 cands added :
  Forall (inherited_entry releasename d0 cands) added ->
  Dict.keys added = map releasename (Dict.values added).
Proof.
  induction 1 as [|[k v] added (Hk & _) _ IH]; simpl; [reflexivity|].
  simpl in Hk. now rewrite Hk, IH.
Qed.

(** The shape of a merged result: the packages of the project itself,
    each name once, followed by the inherited ones. *)
Lemma get_packages_inherited_shape releasename fuel self s pkgs s' :
  get_packages releasename fuel self true s = (Return pkgs, s') ->
  exists m l linked inherited,
    let own := map (fun n => RemotePackage.mk n (name self)) (nub l) in
    metadata self = Some m /\
    packagelist s (name self) = inr l /\
    (forall n, reachable (prj_meta s) (linked_projects_names m) n
               <-> In n (map name linked)) /\
    pkgs = own ++ inherited /\
    NoDup (nub l ++ map releasename inherited) /\
    Forall (fun p => In p (candidates (packagelist s) linked) /\
                     patchinfo_re (RemotePackage.name p) = false /\
                     kernel_live_patch_re (RemotePackage.name p) = false /\
                     ~ In (RemotePackage.name p) l) inherited /\
    (forall c, In c (candidates (packagelist s) linked) ->
       In c pkgs \/
       patchinfo_re (RemotePackage.name c) = true \/
       kernel_live_patch_re (RemotePackage.name c) = true \/
       exists q, q <> c /\ collides releasename own inherited q c).
Proof.
  intros Hrun.
  destruct (get_packages_inherited_inv _ _ _ _ _ _ Hrun)
    as (m & l & linked & Hm & Hl & Hreach & ->).
  rewrite dict_by_name_own.
  set (d0 := map (own_entry (name self)) (nub l)).
  set (cands := candidates (packagelist s) linked).
  destruct (merge_fold_spec releasename cands d0)
    as (added & Hfold & Hall & Hnd).
  assert (Hkeys0 : Dict.keys d0 = nub l) by apply own_entries_keys.
  assert (Hvals0 : Dict.values d0
                   = map (fun n => RemotePackage.mk n (name self)) (nub l))
    by apply own_entries_values.
  exists m, l, linked, (Dict.values added). cbv zeta.
  split; [exact Hm|]. split; [exact Hl|]. split; [exact Hreach|].
  split; [now rewrite Hfold, values_app, Hvals0|].
  split.
  { rewrite <- (inherited_keys _ _ _ _ Hall), <- Hkeys0, <- keys_app.
    apply Hnd. rewrite Hkeys0. apply nub_from_nodup. }
  split.
  { unfold Dict.values. rewrite Forall_map.
    eapply Forall_impl; [|exact Hall].
    intros kv (_ & H2 & H3 & H4 & H5). repeat split; auto.
    intros Hin. apply H5. rewrite Hkeys0. apply nub_from_in. auto. }
  intros c Hc.
  destruct (merge_fold_present releasename cands d0 c Hc)
    as [H|[H|[H|(q & Hq & Hcol)]]]; auto.
  right; right; right. exists q. split; [exact Hq|].
  rewrite Hfold in Hcol.
  assert (Hentry : forall k, In (k, q) (d0 ++ added) ->
            (In q (map (fun n => RemotePackage.mk n (name self)) (nub l))
             /\ RemotePackage.name q = k) \/
            (In q (Dict.values added) /\ releasename q = k)).
  { intros k Hk. apply in_app_or in Hk. destruct Hk as [Hk|Hk].
    - left. unfold d0 in Hk. apply in_map_iff in Hk.
      destruct Hk as (n & Hn & Hin). unfold own_entry in Hn.
      inversion Hn; subst.
      split; [|reflexivity]. apply in_map_iff. eauto.
    - right. split; [eapply in_values; exact Hk|].
      rewrite Forall_forall in Hall. destruct (Hall _ Hk) as (Hkey & _).
      simpl in Hkey. auto. }
  unfold collides.
  destruct Hcol as [Hk|Hk]; destruct (Hentry _ Hk) as [[H1 H2]|[H1 H2]]; auto.
Qed.

(** ** The merged result *)

(** C3, as amended: in a merged result the keys are unique.  The result
    is made of the packages of the project itself, one per listed name,
    followed by the inherited ones; the names of the former and the
    release names of the latter are pairwise distinct, and no inherited
    package bears the name of a package of the project itself. *)
Theorem merged_keys_unique
  (releasename : RemotePackage.t -> string) (fuel : nat)
  (self : RemoteProject) (s s' : obs) (pkgs : list RemotePackage.t) :
  get_packages releasename fuel self true s = (Return pkgs, s') ->
  exists l inherited,
    packagelist s (name self) = inr l /\
    pkgs = map (fun n => RemotePackage.mk n (name self)) (nub l) ++ inherited /\
    NoDup (nub l ++ map releasename inherited) /\
    Forall (fun p => ~ In (RemotePackage.name p) l) inherited.
Proof.
  intros Hrun.
  destruct (get_packages_inherited_shape _ _ _ _ _ _ Hrun)
    as (m & l & linked & inherited & _ & Hl & _ & Hpkgs & Hnd & Hall & _).
  exists l, inherited. repeat split; auto.
  eapply Forall_impl; [|exact Hall]. intros p H. apply H.
Qed.

Lemma merged_keys_unique_witness :
  exists l inherited,
    packagelist wine_server "T" = inr l /\
    [RemotePackage.mk "wine" "T"; RemotePackage.mk "foo" "R1"]
    = map (fun n => RemotePackage.mk n "T") (nub l) ++ inherited /\
    NoDup (nub l ++ map releasename_ex inherited) /\
    Forall (fun p => ~ In (RemotePackage.name p) l) inherited.
Proof.
  exact (merged_keys_unique releasename_ex 2
           (mkRemoteProject "T" (Some (mkProjectMetadata ["R1"])))
           wine_server _ _ eq_refl).
Defined.

(** C3, as stated, fails: a project that owns [autoyast2.10233] and
    inherits [autoyast2] has both in its merged result, and both have
    the release name [autoyast2]. *)
Lemma merged_result_keeps_alias_of_own_package :
  fst (find_packages releasename_ex 1 "T" true alias_server)
  = Return [RemotePackage.mk "autoyast2.10233" "T";
            RemotePackage.mk "autoyast2" "R1"]
  /\ RemotePackage.mk "autoyast2.10233" "T" <> RemotePackage.mk "autoyast2" "R1"
  /\ releasename_ex (RemotePackage.mk "autoyast2.10233" "T")
     = releasename_ex (RemotePackage.mk "autoyast2" "R1").
Proof.
  split; [reflexivity|]. split; [discriminate | reflexivity].
Qed.

(** C4: when the project itself lists a package [foo], its merged result
    contains its own [foo], among its own packages at the head of the
    result, and none of the inherited packages of the result has the
    name or the release name [foo]: a candidate with either is
    skipped. *)
Theorem own_package_precedence
  (releasename : RemotePackage.t -> string) (fuel : nat)
  (self : RemoteProject) (s s' : obs) (pkgs : list RemotePackage.t)
  (l : list string) (foo : string) :
  get_packages releasename fuel self true s = (Return pkgs, s') ->
  packagelist s (name self) = inr l ->
  In foo l ->
  In (RemotePackage.mk foo (name self)) pkgs /\
  exists inherited,
    pkgs = map (fun n => RemotePackage.mk n (name self)) (nub l) ++ inherited /\
    In (RemotePackage.mk foo (name self))
       (map (fun n => RemotePackage.mk n (name self)) (nub l)) /\
    forall c, In c inherited ->
              RemotePackage.name c <> foo /\ releasename c <> foo.
Proof.
  intros Hrun Hl Hfoo.
  destruct (get_packages_inherited_shape _ _ _ _ _ _ Hrun)
    as (m & l' & linked & inherited & _ & Hl' & _ & Hpkgs & Hnd & Hall & _).
  rewrite Hl in Hl'. inversion Hl'; subst l'. clear Hl'.
  assert (Hown : In (RemotePackage.mk foo (name self))
                   (map (fun n => RemotePackage.mk n (name self)) (nub l))).
  { apply (in_map (fun n => RemotePackage.mk n (name self))).
    apply nub_from_in. auto. }
  split; [rewrite Hpkgs; apply in_or_app; now left|].
  exists inherited. split; [exact Hpkgs|]. split; [exact Hown|].
  intros c Hc. split.
  - rewrite Forall_forall in Hall. destruct (Hall c Hc) as (_ & _ & _ & Hn).
    intros Heq. apply Hn. now rewrite Heq.
  - intros Heq.
    assert (Hin : In foo (map releasename inherited))
      by (rewrite <- Heq; now apply in_map).
    assert (Hin0 : In foo (nub l)) by (apply nub_from_in; auto).
    apply in_split in Hin0. destruct Hin0 as (l1 & l2 & Hsplit).
    rewrite Hsplit, <- app_assoc in Hnd. simpl in Hnd.
    apply NoDup_remove_2 in Hnd. apply Hnd.
    rewrite !in_app_iff. auto.
Qed.

Lemma own_package_precedence_witness :
  In (RemotePackage.mk "wine" "T")
     [RemotePackage.mk "wine" "T"; RemotePackage.mk "foo" "R1"] /\
  exists inherited,
    [RemotePackage.mk "wine" "T"; RemotePackage.mk "foo" "R1"]
    = map (fun n => RemotePackage.mk n "T") (nub ["wine"]) ++ inherited /\
    In (RemotePackage.mk "wine" "T")
       (map (fun n => RemotePackage.mk n "T") (nub ["wine"])) /\
    forall c, In c inherited ->
              RemotePackage.name c <> "wine" /\ releasename_ex c <> "wine".
Proof.
  apply (own_package_precedence releasename_ex 2
           (mkRemoteProject "T" (Some (mkProjectMetadata ["R1"])))
           wine_server
           (logged wine_server
              [GET_packagelist "T"; GET_prj_meta "R1"; GET_prj_meta "R2";
               GET_packagelist "R1"; GET_packagelist "R2"])
           _ ["wine"] "wine").
  - reflexivity.
  - reflexivity.
  - simpl. auto.
Defined.

(** ** The exclusion patterns *)

Lemma digits_to_end_digits rest :
  forallb is_digit (list_ascii_of_string rest) = true ->
  digits_to_end rest = true.
Proof.
  induction rest as [|c rest IH]; simpl; [reflexivity|].
  intros H. apply andb_prop in H. destruct H as [Hc Hrest].
  rewrite Hc. auto.
Qed.

(** C5: a name made of [patchinfo.] and one or more digits matches the
    first pattern, and a name that starts with [kernel-livepatch-]
    matches the second; the name [kernel-livepatch] matches neither.  In
    a merged result no inherited package has a name that matches either
    pattern, and a package named [kernel-livepatch] of a project
    reached through the links is in the result unless another package
    of the result holds its name or its release name as key. *)
Theorem exclusion_patterns
  (releasename : RemotePackage.t -> string) (fuel : nat)
  (self : RemoteProject) (s s' : obs) (pkgs : list RemotePackage.t) :
  get_packages releasename fuel self true s = (Return pkgs, s') ->
  (forall c rest,
     is_digit c = true ->
     forallb is_digit (list_ascii_of_string rest) = true ->
     patchinfo_re ("patchinfo." ++ String c rest)%string = true) /\
  (forall suffix,
     kernel_live_patch_re ("kernel-livepatch-" ++ suffix)%string = true) /\
  patchinfo_re "kernel-livepatch" = false /\
  kernel_live_patch_re "kernel-livepatch" = false /\
  exists m l inherited,
    let own := map (fun n => RemotePackage.mk n (name self)) (nub l) in
    metadata self = Some m /\
    packagelist s (name self) = inr l /\
    pkgs = own ++ inherited /\
    (forall p, In p inherited ->
               patchinfo_re (RemotePackage.name p) = false /\
               kernel_live_patch_re (RemotePackage.name p) = false) /\
    (forall n lp,
       reachable (prj_meta s) (linked_projects_names m) n ->
       packagelist s n = inr lp ->
       In "kernel-livepatch" lp ->
       let c := RemotePackage.mk "kernel-livepatch" n in
       In c pkgs \/
       exists q, q <> c /\ collides releasename own inherited q c).
Proof.
  intros Hrun.
  split.
  { intros c rest Hc Hrest. unfold patchinfo_re. simpl.
    rewrite Hc. now apply digits_to_end_digits. }
  split; [reflexivity|]. split; [reflexivity|]. split; [reflexivity|].
  destruct (get_packages_inherited_shape _ _ _ _ _ _ Hrun)
    as (m & l & linked & inherited & Hm & Hl & Hreach & Hpkgs & _ & Hall
        & Hpresent).
  exists m, l, inherited. cbv zeta.
  split; [exact Hm|]. split; [exact Hl|]. split; [exact Hpkgs|]. split.
  - intros p Hp. rewrite Forall_forall in Hall.
    destruct (Hall p Hp) as (_ & H1 & H2 & _). auto.
  - intros n lp Hn Hlp Hin.
    apply Hreach in Hn. apply in_map_iff in Hn.
    destruct Hn as (project & Hname & Hproject).
    assert (Hc : In (RemotePackage.mk "kernel-livepatch" n)
                   (candidates (packagelist s) linked)).
    { apply candidates_in. exists project, lp. rewrite Hname. auto. }
    destruct (Hpresent _ Hc) as [H|[H|[H|H]]]; auto; discriminate.
Qed.

Lemma exclusion_patterns_witness :
  patchinfo_re "patchinfo.1002" = true /\
  kernel_live_patch_re "kernel-livepatch-5_3" = true /\
  fst (find_packages releasename_ex 1 "T" true livepatch_server)
  = Return [RemotePackage.mk "wine" "T";
            RemotePackage.mk "kernel-livepatch" "R1"].
Proof.
  destruct (exclusion_patterns releasename_ex 1
              (mkRemoteProject "T" (Some (mkProjectMetadata ["R1"])))
              livepatch_server _ _ eq_refl)
    as (Hpatch & Hkernel & _).
  split; [apply (Hpatch "1"%char "002"); reflexivity|].
  split; [apply (Hkernel "5_3")|]. reflexivity.
Defined.

(** ** The closure of the links *)

Lemma resolve_exists meta n r :
  resolve meta n = inr r -> exists content, meta n = inr content.
Proof.
  unfold resolve, load_result.
  destruct (meta n) as [[code|reason]|content]; eauto.
  - destruct (Z.eqb code 404); discriminate.
  - discriminate.
Qed.

Lemma server_projects projects n content :
  prj_meta (server projects) n = inr content -> In n (Dict.keys projects).
Proof.
  simpl. destruct (Dict.get projects n) as [[links pkgs]|] eqn:Hget;
    [|discriminate].
  intros _. apply dict_get_in in Hget. unfold Dict.keys.
  change n with (fst (n, (links, pkgs))). now apply in_map.
Qed.

Lemma walk_raise fuel :
  forall to_process result s e s',
    linked_projects_loop fuel true to_process result s = (Raise e, s') ->
    exists pre n,
      s' = logged s (map GET_prj_meta (pre ++ [n])) /\
      Forall (fun k => exists r, resolve (prj_meta s) k = inr r) pre /\
      resolve (prj_meta s) n = inl e.
Proof.
  induction fuel as [|fuel IH]; intros to_process result s e s' Hrun.
  - destruct to_process; discriminate.
  - destruct to_process as [|n to_process]; simpl in Hrun; [discriminate|].
    destruct (forallb _ result); [|now apply IH in Hrun].
    unfold bind in Hrun. rewrite find_eq in Hrun.
    destruct (resolve (prj_meta s) n) as [e0|r] eqn:Hr; simpl in Hrun.
    { inversion Hrun; subst. exists [], n. auto. }
    destruct (resolve_metadata _ _ _ Hr) as (m & Hm).
    unfold metadata_of in Hrun. rewrite Hm in Hrun. simpl in Hrun.
    apply IH in Hrun. destruct Hrun as (pre & k & -> & Hpre & Hk).
    exists (n :: pre), k. split; [now rewrite logged_logged|].
    split; [|exact Hk]. constructor; eauto.
Qed.

Lemma logged_inj s a b : logged s a = logged s b -> a = b.
Proof.
  unfold logged. intros H. inversion H as [Hlog].
  now apply app_inv_head in Hlog.
Qed.

Lemma map_GET_inj a b : map GET_prj_meta a = map GET_prj_meta b -> a = b.
Proof.
  revert b. induction a as [|x a IH]; intros [|y b] H; simpl in H;
    try discriminate; [reflexivity|].
  inversion H; subst. f_equal. auto.
Qed.

(** C2: on a server with finitely many projects, whatever the links,
    cycles and self-links included, [linked_projects] with recursion
    terminates once given enough fuel.  It sends one GET per fetched
    name and no two for the same name; every fetched name is reachable
    through the links.  When it returns, the projects of the result are,
    in the order of the requests, exactly the reachable names, each once
    and each resolved.  It raises only the failure of [find] on the last
    fetched name, the names before it having resolved; so it returns
    whenever every reachable name resolves, and a name already in the
    result neither is fetched again nor makes the walk fail. *)
Theorem linked_projects_recursive_closure
  (self : ProjectMetadata) (s : obs) (universe : list string) :
  (forall n content, prj_meta s n = inr content -> In n universe) ->
  exists bound, forall fuel, bound <= fuel ->
    exists o fetched,
      linked_projects fuel self true s
      = (o, logged s (map GET_prj_meta fetched)) /\
      o <> OutOfFuel /\
      NoDup fetched /\
      (forall n, In n fetched ->
                 reachable (prj_meta s) (linked_projects_names self) n) /\
      (forall result, o = Return result ->
         map name result = fetched /\
         Forall (fun r => resolve (prj_meta s) (name r) = inr r) result /\
         forall n, reachable (prj_meta s) (linked_projects_names self) n
                   <-> In n fetched) /\
      (forall e, o = Raise e ->
         exists pre n,
           fetched = pre ++ [n] /\
           Forall (fun k => exists r, resolve (prj_meta s) k = inr r) pre /\
           resolve (prj_meta s) n = inl e) /\
      ((forall n, reachable (prj_meta s) (linked_projects_names self) n ->
                  exists r, resolve (prj_meta s) n = inr r) ->
       exists result, o = Return result).
Proof.
  intros Hfin.
  set (meta := prj_meta s). set (seed := linked_projects_names self).
  exists (List.length seed + pending meta (nodup string_dec universe) []).
  intros fuel Hfuel. unfold linked_projects. fold seed.
  destruct (linked_projects_loop fuel true seed [] s) as [o s'] eqn:Hrun.
  destruct (walk_spec meta seed fuel _ _ _ _ _ eq_refl
              (walk_inv_init meta seed) Hrun)
    as (fetched & Hs' & Hnd & Hreach & Hret).
  simpl in Hnd, Hret.
  assert (Ho : o <> OutOfFuel).
  { assert (Hterm := walk_terminates meta (nodup string_dec universe)
                       (NoDup_nodup _ _)).
    specialize (Hterm (fun n r Hr =>
      match resolve_exists _ _ _ Hr with
      | ex_intro _ content Hc =>
          proj2 (nodup_In string_dec universe n) (Hfin n content Hc)
      end)).
    specialize (Hterm fuel seed [] s eq_refl Hfuel).
    now rewrite Hrun in Hterm. }
  assert (Hraise : forall e, o = Raise e ->
            exists pre n,
              fetched = pre ++ [n] /\
              Forall (fun k => exists r, resolve meta k = inr r) pre /\
              resolve meta n = inl e).
  { intros e ->. destruct (walk_raise _ _ _ _ _ _ Hrun)
      as (pre & n & Hlog & Hpre & Hn).
    exists pre, n. split; [|auto].
    rewrite Hs' in Hlog. apply logged_inj, map_GET_inj in Hlog. exact Hlog. }
  exists o, fetched. split; [now rewrite Hs'|]. split; [exact Ho|].
  split; [exact Hnd|]. split; [exact Hreach|]. split.
  { intros result Hres. destruct (Hret result Hres) as (Hnames & Hinv).
    split; [exact Hnames|]. split; [apply (inv_resolved Hinv)|].
    intros n. rewrite <- Hnames. apply walk_inv_done. exact Hinv. }
  split; [exact Hraise|].
  intros Hall. destruct o as [result|e|].
  - eauto.
  - exfalso. destruct (Hraise e eq_refl) as (pre & n & Hf & _ & Hn).
    destruct (Hall n) as (r & Hr).
    + apply Hreach. rewrite Hf. apply in_or_app. right. now left.
    + fold meta in Hr. congruence.
  - contradiction.
Qed.

Lemma cyclic_reachable n :
  reachable (prj_meta cyclic_server) ["A"; "B"] n -> In n ["A"; "B"; "C"].
Proof.
  induction 1 as [k Hk|k k' _ IH Hlink].
  - simpl in *. tauto.
  - destruct IH as [<-|[<-|[<-|[]]]]; vm_compute in Hlink; simpl; tauto.
Qed.

Lemma linked_projects_recursive_closure_witness :
  exists bound, forall fuel, bound <= fuel ->
    exists result fetched,
      linked_projects fuel (mkProjectMetadata ["A"; "B"]) true cyclic_server
      = (Return result, logged cyclic_server (map GET_prj_meta fetched)) /\
      map name result = fetched /\
      NoDup fetched /\
      forall n, In n ["A"; "B"; "C"] -> In n fetched.
Proof.
  destruct (linked_projects_recursive_closure (mkProjectMetadata ["A"; "B"])
              cyclic_server ["A"; "B"; "C"]) as (bound & Hbound).
  { intros n content H. apply server_projects in H. exact H. }
  exists bound. intros fuel Hfuel.
  destruct (Hbound fuel Hfuel)
    as (o & fetched & Hrun & _ & Hnd & _ & Hret & _ & Hall).
  destruct Hall as (result & ->).
  { intros n Hn. apply cyclic_reachable in Hn.
    destruct Hn as [<-|[<-|[<-|[]]]]; eexists; reflexivity. }
  destruct (Hret result eq_refl) as (Hnames & _ & Hiff).
  exists result, fetched. split; [exact Hrun|]. split; [exact Hnames|].
  split; [exact Hnd|].
  intros n Hn. apply Hiff. simpl in Hn.
  destruct Hn as [<-|[<-|[<-|[]]]].
  - apply reach_seed. simpl. auto.
  - apply reach_seed. simpl. auto.
  - apply reach_link with "B"; [apply reach_seed; simpl; auto|].
    vm_compute. auto.
Defined.

(** C6: without recursion, and with fuel for each name of the link
    list, [linked_projects] is [find] on each directly linked name in
    turn, repeated names left out after their first occurrence.  It
    sends GETs for those names only and in that order, stops at the
    first that fails to resolve with the failure of that one, and
    otherwise returns one resolved project per name. *)
Theorem linked_projects_direct
  (self : ProjectMetadata) (s : obs) (fuel : nat) :
  List.length (linked_projects_names self) <= fuel ->
  let seed := linked_projects_names self in
  linked_projects fuel self false s = find_each (nub seed) [] s /\
  NoDup (nub seed) /\
  (forall n, In n (nub seed) <-> In n seed) /\
  exists fetched rest o,
    nub seed = fetched ++ rest /\
    linked_projects fuel self false s
    = (o, logged s (map GET_prj_meta fetched)) /\
    o <> OutOfFuel /\
    (forall result, o = Return result ->
       rest = [] /\ map name result = nub seed /\
       Forall (fun r => resolve (prj_meta s) (name r) = inr r) result) /\
    (forall e, o = Raise e ->
       exists pre n, fetched = pre ++ [n] /\ resolve (prj_meta s) n = inl e).
Proof.
  intros Hfuel seed.
  assert (Heq : linked_projects fuel self false s = find_each (nub seed) [] s).
  { unfold linked_projects. fold seed. now rewrite walk_flat. }
  split; [exact Heq|]. split; [apply nub_from_nodup|]. split.
  { intros n. unfold nub. rewrite nub_from_in. simpl. tauto. }
  destruct (find_each_spec (nub seed) [] s)
    as (fetched & rest & o & Hsplit & Hrun & Ho & Hret & Hraise).
  exists fetched, rest, o. rewrite Heq.
  split; [exact Hsplit|]. split; [exact Hrun|]. split; [exact Ho|].
  split; [|exact Hraise].
  intros result Hres.
  destruct (Hret result Hres) as (Hrest & found & -> & Hnames & Hall).
  simpl. auto.
Qed.

Lemma linked_projects_direct_witness :
  linked_projects 3 (mkProjectMetadata ["B"; "A"; "B"]) false cyclic_server
  = (Return [mkRemoteProject "B" (Some (mkProjectMetadata ["C"; "A"]));
             mkRemoteProject "A" (Some (mkProjectMetadata ["A"; "B"]))],
     logged cyclic_server [GET_prj_meta "B"; GET_prj_meta "A"]).
Proof.
  destruct (linked_projects_direct (mkProjectMetadata ["B"; "A"; "B"])
              cyclic_server 3) as (Heq & _).
  - simpl. lia.
  - rewrite Heq. reflexivity.
Defined.

(** ** A link to a project that does not exist *)

Lemma walk_return_resolves fuel seed s linked s' :
  linked_projects_loop fuel true seed [] s = (Return linked, s') ->
  forall n, In n seed -> exists r, resolve (prj_meta s) n = inr r.
Proof.
  intros Hrun n Hn.
  destruct (walk_spec (prj_meta s) seed fuel _ _ _ _ _ eq_refl
              (walk_inv_init (prj_meta s) seed) Hrun)
    as (fetched & _ & _ & _ & Hret).
  destruct (Hret linked eq_refl) as (_ & Hinv).
  destruct (inv_seed Hinv n Hn) as [[]|Hin].
  apply in_map_iff in Hin. destruct Hin as (r & <- & Hr).
  exists r. pose proof (inv_resolved Hinv) as Hall.
  rewrite Forall_forall in Hall. now apply Hall.
Qed.

Lemma not_found_unresolved meta n r :
  meta n = inl (HTTPError 404) -> resolve meta n <> inr r.
Proof. intros H. unfold resolve. rewrite H. discriminate. Qed.

(** C7, as amended: when the project links to a name that the server
    answers with 404, [get_packages] with inheritance never returns a
    result.  It raises [ProjectNotFound] for that name when the listing
    of the project's own packages succeeds and the names ahead of it in
    the link list resolve; and on a server with finitely many projects
    it raises some exception once given enough fuel. *)
Theorem dangling_link_aborts
  (releasename : RemotePackage.t -> string) (fuel : nat)
  (self : RemoteProject) (m : ProjectMetadata) (s : obs) (missing : string) :
  metadata self = Some m ->
  In missing (linked_projects_names m) ->
  prj_meta s missing = inl (HTTPError 404) ->
  (forall pkgs, fst (get_packages releasename fuel self true s) <> Return pkgs)
  /\
  (forall pre post l,
     linked_projects_names m = pre ++ missing :: post ->
     packagelist s (name self) = inr l ->
     Forall (fun n => exists r, resolve (prj_meta s) n = inr r) pre ->
     List.length pre < fuel ->
     fst (get_packages releasename fuel self true s)
     = Raise (ProjectNotFound ("Project " ++ missing ++ " not found")))
  /\
  (forall universe,
     (forall n content, prj_meta s n = inr content -> In n universe) ->
     exists bound, forall fuel', bound <= fuel' ->
       exists e, fst (get_packages releasename fuel' self true s) = Raise e).
Proof.
  intros Hm Hin H404.
  assert (Hnever : forall fuel0 s0 linked s1,
            prj_meta s0 = prj_meta s ->
            linked_projects_loop fuel0 true (linked_projects_names m) [] s0
            <> (Return linked, s1)).
  { intros fuel0 s0 linked s1 Hs0 Hrun.
    destruct (walk_return_resolves _ _ _ _ _ Hrun missing Hin) as (r & Hr).
    rewrite Hs0 in Hr. now apply (not_found_unresolved _ _ r H404). }
  split; [|split].
  - intros pkgs Hret.
    unfold get_packages, bind in Hret. rewrite package_list_eq in Hret.
    destruct (packagelist s (name self)) as [e|l]; [discriminate|].
    unfold metadata_of in Hret. rewrite Hm in Hret. simpl in Hret.
    unfold linked_projects in Hret.
    destruct (linked_projects_loop fuel true (linked_projects_names m) []
                (logged s [GET_packagelist (name self)]))
      as [[linked| |] s1] eqn:Hrun; try discriminate.
    exact (Hnever _ (logged s [GET_packagelist (name self)]) _ _ eq_refl Hrun).
  - intros pre post l Hsplit Hl Hpre Hfuel.
    unfold get_packages, bind. rewrite package_list_eq, Hl.
    unfold metadata_of. rewrite Hm. simpl. unfold linked_projects.
    pose proof (walk_hits_missing (prj_meta s) missing H404 pre fuel [] post
                  (logged s [GET_packagelist (name self)]) eq_refl Hfuel Hpre
                  (Forall_nil _)) as Hwalk.
    rewrite Hsplit.
    destruct (linked_projects_loop fuel true (pre ++ missing :: post) []
                (logged s [GET_packagelist (name self)])) as [o s1].
    simpl in Hwalk. now subst o.
  - intros universe Hfin.
    exists (List.length (linked_projects_names m)
            + pending (prj_meta s) (nodup string_dec universe) []).
    intros fuel' Hfuel'.
    unfold get_packages, bind. rewrite package_list_eq.
    destruct (packagelist s (name self)) as [e|l]; [simpl; eauto|].
    unfold metadata_of. rewrite Hm. simpl. unfold linked_projects.
    assert (Hterm := walk_terminates (prj_meta s) (nodup string_dec universe)
                       (NoDup_nodup _ _)).
    specialize (Hterm (fun n r Hr =>
      match resolve_exists _ _ _ Hr with
      | ex_intro _ content Hc =>
          proj2 (nodup_In string_dec universe n) (Hfin n content Hc)
      end)).
    specialize (Hterm fuel' (linked_projects_names m) []
                  (logged s [GET_packagelist (name self)]) eq_refl Hfuel').
    destruct (linked_projects_loop fuel' true (linked_projects_names m) []
                (logged s [GET_packagelist (name self)]))
      as [[linked|e|] s1] eqn:Hrun.
    + exfalso. exact (Hnever _ (logged s [GET_packagelist (name self)]) _ _ eq_refl Hrun).
    + simpl. eauto.
    + now elim Hterm.
Qed.

Lemma dangling_link_aborts_witness :
  fst (get_packages releasename_ex 2
         (mkRemoteProject "T" (Some (mkProjectMetadata ["R1"; "Gone"])))
         true dangling_server)
  = Raise (ProjectNotFound "Project Gone not found").
Proof.
  destruct (dangling_link_aborts releasename_ex 2
              (mkRemoteProject "T" (Some (mkProjectMetadata ["R1"; "Gone"])))
              (mkProjectMetadata ["R1"; "Gone"]) dangling_server "Gone"
              eq_refl (or_intror (or_introl eq_refl)) eq_refl)
    as (_ & Hraise & _).
  apply (Hraise ["R1"] [] ["wine"] eq_refl eq_refl).
  - constructor; [|constructor]. eexists. reflexivity.
  - simpl. lia.
Defined.

(** C7, as stated, fails: the project links to [Gone], which does not
    exist, but the server answers the meta of [R1], the link ahead of
    it, with status 500, and that failure is the one raised. *)
Lemma dangling_link_behind_server_error :
  prj_meta (with_meta_failure "R1" (HTTPError 500) dangling_server) "Gone"
  = inl (HTTPError 404)
  /\ In "Gone" ["R1"; "Gone"]
  /\ fst (get_packages releasename_ex 2
            (mkRemoteProject "T" (Some (mkProjectMetadata ["R1"; "Gone"])))
            true (with_meta_failure "R1" (HTTPError 500) dangling_server))
     = Raise (Transport (HTTPError 500)).
Proof.
  split; [reflexivity|]. split; [simpl; auto | reflexivity].
Qed.

(** ** The scenario of the wine and foo packages *)

Lemma walk_done fuel recursive result :
  linked_projects_loop fuel recursive [] result = ret result.
Proof. destruct fuel; reflexivity. Qed.

Section MergeSteps.

Variable releasename : RemotePackage.t -> string.

Lemma merge_pkg_name_taken d pkg :
  Dict.mem (RemotePackage.name pkg) d = true -> merge_pkg releasename d pkg = d.
Proof. intros H. unfold merge_pkg. now rewrite H. Qed.

Lemma merge_pkg_pattern d pkg :
  patchinfo_re (RemotePackage.name pkg) = true \/
  kernel_live_patch_re (RemotePackage.name pkg) = true ->
  merge_pkg releasename d pkg = d.
Proof.
  intros H. unfold merge_pkg.
  destruct (Dict.mem (RemotePackage.name pkg) d); [reflexivity|].
  destruct (patchinfo_re (RemotePackage.name pkg)); [reflexivity|].
  destruct (kernel_live_patch_re (RemotePackage.name pkg)); [reflexivity|].
  destruct H; discriminate.
Qed.

Lemma merge_pkg_alias_taken d pkg :
  Dict.mem (releasename pkg) d = true -> merge_pkg releasename d pkg = d.
Proof.
  intros H. unfold merge_pkg. rewrite H.
  destruct (Dict.mem (RemotePackage.name pkg) d); [reflexivity|].
  destruct (patchinfo_re (RemotePackage.name pkg)); [reflexivity|].
  now destruct (kernel_live_patch_re (RemotePackage.name pkg)).
Qed.

Lemma merge_pkg_insert d pkg :
  Dict.mem (RemotePackage.name pkg) d = false ->
  patchinfo_re (RemotePackage.name pkg) = false ->
  kernel_live_patch_re (RemotePackage.name pkg) = false ->
  Dict.mem (releasename pkg) d = false ->
  merge_pkg releasename d pkg = d ++ [(releasename pkg, pkg)].
Proof.
  intros H1 H2 H3 H4. unfold merge_pkg. rewrite H1, H2, H3, H4.
  now apply dict_set_fresh.
Qed.

End MergeSteps.

(** The scenario when the release name of [foo] itself is [foo]. *)
Lemma wine_scenario_canonical_foo
  (releasename : RemotePackage.t -> string) (fuel : nat) :
  2 <= fuel ->
  releasename (RemotePackage.mk "foo.99" "R2") = "foo" ->
  releasename (RemotePackage.mk "foo" "R1") = "foo" ->
  find_packages releasename fuel "T" true wine_server
  = (Return [RemotePackage.mk "wine" "T"; RemotePackage.mk "foo" "R1"],
     logged wine_server
       [GET_prj_meta "T"; GET_packagelist "T"; GET_prj_meta "R1";
        GET_prj_meta "R2"; GET_packagelist "R1"; GET_packagelist "R2"]).
Proof.
  intros Hfuel H99 Hfoo.
  destruct fuel as [|[|fuel]]; [lia | lia |].
  unfold find_packages, get_packages, _merge_inherited, bind.
  cbn -[merge_pkg]. rewrite walk_done. cbn -[merge_pkg].
  rewrite (merge_pkg_name_taken releasename
             [("wine", RemotePackage.mk "wine" "T")]
             (RemotePackage.mk "wine" "R1")) by reflexivity.
  rewrite (merge_pkg_pattern releasename
             [("wine", RemotePackage.mk "wine" "T")]
             (RemotePackage.mk "patchinfo.42" "R1")) by (left; reflexivity).
  rewrite (merge_pkg_insert releasename
             [("wine", RemotePackage.mk "wine" "T")]
             (RemotePackage.mk "foo" "R1"))
    by (rewrite ?Hfoo; reflexivity).
  rewrite Hfoo.
  rewrite (merge_pkg_alias_taken releasename _
             (RemotePackage.mk "foo.99" "R2"))
    by (rewrite H99; reflexivity).
  reflexivity.
Qed.

(** C1: in the scenario, for a release name that is a normalisation and
    maps [foo.99] of [R2] to [foo], [get_packages] with inheritance on
    [T] returns exactly the two packages [wine] of [T] and [foo] of
    [R1], in this order, having fetched the metas of [R1] and [R2] and
    the three package listings: the [wine] of [R1] yields to the own
    package, [patchinfo.42] matches the pattern, and [foo.99] meets the
    key [foo] under which the [foo] of [R1] sits. *)
Theorem wine_scenario
  (releasename : RemotePackage.t -> string) (fuel : nat) :
  normalising releasename ->
  2 <= fuel ->
  releasename (RemotePackage.mk "foo.99" "R2") = "foo" ->
  find_packages releasename fuel "T" true wine_server
  = (Return [RemotePackage.mk "wine" "T"; RemotePackage.mk "foo" "R1"],
     logged wine_server
       [GET_prj_meta "T"; GET_packagelist "T"; GET_prj_meta "R1";
        GET_prj_meta "R2"; GET_packagelist "R1"; GET_packagelist "R2"]).
Proof.
  intros Hnorm Hfuel H99.
  apply wine_scenario_canonical_foo; [exact Hfuel | exact H99 |].
  apply (Hnorm (RemotePackage.mk "foo.99" "R2") (RemotePackage.mk "foo" "R1")).
  now rewrite H99.
Qed.

Lemma releasename_ex_normalising : normalising releasename_ex.
Proof.
  intros p q Hq. unfold releasename_ex in *.
  destruct (String.eqb_spec (RemotePackage.name p) "foo.99").
  { now rewrite Hq. }
  destruct (String.eqb_spec (RemotePackage.name p) "autoyast2.10233").
  { now rewrite Hq. }
  rewrite Hq.
  destruct (String.eqb_spec (RemotePackage.name p) "foo.99"); [contradiction|].
  destruct (String.eqb_spec (RemotePackage.name p) "autoyast2.10233");
    [contradiction | reflexivity].
Qed.

Lemma wine_scenario_witness :
  find_packages releasename_ex 2 "T" true wine_server
  = (Return [RemotePackage.mk "wine" "T"; RemotePackage.mk "foo" "R1"],
     logged wine_server
       [GET_prj_meta "T"; GET_packagelist "T"; GET_prj_meta "R1";
        GET_prj_meta "R2"; GET_packagelist "R1"; GET_packagelist "R2"]).
Proof.
  apply (wine_scenario releasename_ex 2);
    [exact releasename_ex_normalising | lia | reflexivity].
Defined.

(** * Further properties of the module *)

(** ** Parsing a meta *)

Lemma parse_children_ok cs :
  forall acc l,
    parse_children cs acc = inr l <->
    exists l', l = acc ++ l' /\
      Forall2 (fun c p => Dict.get (ET.attrib c) "project" = Some p)
        (filter (fun c => String.eqb (ET.tag c) "link") cs) l'.
Proof.
  induction cs as [|c cs IH]; intros acc l; simpl.
  - split.
    + intros H. inversion H; subst. exists []. rewrite app_nil_r.
      split; [reflexivity | constructor].
    + intros (l' & -> & H). inversion H. now rewrite app_nil_r.
  - destruct (String.eqb (ET.tag c) "link"); [|apply IH].
    destruct (Dict.get (ET.attrib c) "project") as [p|] eqn:Hp.
    + rewrite IH. split.
      * intros (l' & -> & H). exists (p :: l'). rewrite <- app_assoc.
        split; [reflexivity | now constructor].
      * intros (l' & -> & H). inversion H as [|? p' ? l'' Hp' Hrest]; subst.
        rewrite Hp in Hp'. inversion Hp'; subst. exists l''.
        rewrite <- app_assoc. auto.
    + split; [discriminate|].
      intros (l' & _ & H). inversion H; subst. congruence.
Qed.

Lemma parse_children_error cs :
  forall acc e,
    parse_children cs acc = inl e <->
    e = KeyError "project" /\
    Exists (fun c => Dict.get (ET.attrib c) "project" = None)
      (filter (fun c => String.eqb (ET.tag c) "link") cs).
Proof.
  induction cs as [|c cs IH]; intros acc e; simpl.
  - split; [discriminate | intros (_ & H); inversion H].
  - destruct (String.eqb (ET.tag c) "link"); [|apply IH].
    destruct (Dict.get (ET.attrib c) "project") as [p|] eqn:Hp.
    + rewrite IH. split.
      * intros (He & H). split; [exact He | now right].
      * intros (He & H). split; [exact He|].
        inversion H; subst; [congruence | assumption].
    + split.
      * intros H. inversion H; subst. split; [reflexivity | now left].
      * intros (-> & _). reflexivity.
Qed.

(** X1: [parse] returns the [project] attributes of the [link] children
    of the root, in document order, whatever the other children are; it
    fails with [KeyError] exactly when some [link] child has no
    [project] attribute, and with a syntax error on bytes that are not
    markup. *)
Theorem parse_collects_links (root : element) :
  (forall m,
     parse (Markup root) = inr m <->
     Forall2 (fun c p => Dict.get (ET.attrib c) "project" = Some p)
       (filter (fun c => String.eqb (ET.tag c) "link") (ET.children root))
       (linked_projects_names m)) /\
  (forall e,
     parse (Markup root) = inl e <->
     e = KeyError "project" /\
     Exists (fun c => Dict.get (ET.attrib c) "project" = None)
       (filter (fun c => String.eqb (ET.tag c) "link") (ET.children root))) /\
  (forall raw, parse (Malformed raw) = inl XMLSyntaxError).
Proof.
  split; [|split; [|reflexivity]].
  - intros [l]. simpl.
    assert (Hiff := parse_children_ok (ET.children root) [] l).
    unfold parse. simpl.
    destruct (parse_children (ET.children root) []) as [e|l0].
    + split; [discriminate|]. intros H.
      assert (Hok : @inl exn (list string) e = inr l)
        by (apply Hiff; exists l; auto).
      discriminate.
    + split.
      * intros H. inversion H; subst.
        destruct (proj1 Hiff eq_refl) as (l' & Hl' & Hall).
        simpl in Hl'. now subst.
      * intros H. f_equal. f_equal.
        assert (Hok : @inr exn (list string) l0 = inr l)
          by (apply Hiff; exists l; auto).
        now inversion Hok.
  - intros e. unfold parse. simpl.
    assert (Hiff := parse_children_error (ET.children root) [] e).
    destruct (parse_children (ET.children root) []) as [e0|l0].
    + split.
      * intros H. inversion H; subst. now apply Hiff.
      * intros H. f_equal. apply Hiff in H. now inversion H.
    + split; [discriminate|]. intros H. apply Hiff in H. discriminate.
Qed.

Lemma parse_error_kind (root : element) (e : exn) :
  parse (Markup root) = inl e -> e = KeyError "project".
Proof.
  unfold parse. simpl.
  destruct (parse_children (ET.children root) []) as [e0|l0] eqn:Hp;
    [|discriminate].
  intros H. inversion H; subst. apply parse_children_error in Hp. tauto.
Qed.

(** ** Saving and loading *)

(** X2: a meta that [save] has stored is what [load] returns next, and
    the metas of the other projects and all package listings are as
    before; when the server refuses the PUT, its failure is raised as it
    is and the server has only logged the request. *)
Theorem save_then_load (project_name : string) (content : bytes) (s : obs) :
  (put_refused s project_name content = None ->
   exists s',
     save project_name content s = (Return tt, s') /\
     load project_name s'
     = (Return content, logged s' [GET_prj_meta project_name]) /\
     (forall k, k <> project_name -> prj_meta s' k = prj_meta s k) /\
     packagelist s' = packagelist s /\
     log s' = log s ++ [PUT_prj_meta project_name content]) /\
  (forall e,
     put_refused s project_name content = Some e ->
     save project_name content s
     = (Raise (Transport e), logged s [PUT_prj_meta project_name content])).
Proof.
  split.
  - intros Hput. unfold save, http_PUT_meta. rewrite Hput.
    eexists. split; [reflexivity|]. rewrite load_eq. simpl.
    rewrite String.eqb_refl. simpl. repeat split.
    intros k Hk. destruct (String.eqb_spec k project_name);
      [contradiction | reflexivity].
  - intros e Hput. unfold save, http_PUT_meta. rewrite Hput.
    destruct e; reflexivity.
Qed.

Lemma save_then_load_witness :
  exists s',
    save "R3" (project_doc "R3" ["R1"]) wine_server = (Return tt, s') /\
    load "R3" s'
    = (Return (project_doc "R3" ["R1"]), logged s' [GET_prj_meta "R3"]).
Proof.
  destruct (proj1 (save_then_load "R3" (project_doc "R3" ["R1"]) wine_server)
              eq_refl) as (s' & Hsave & Hload & _).
  exists s'. split; [exact Hsave | exact Hload].
Defined.

(** ** Finding a project *)

(** X3: [find] sends one GET.  It raises [ProjectNotFound] exactly when
    the server answers 404 and a syntax error when the answer is not
    markup; a project that it returns bears the name asked for and the
    metadata parsed from the answer. *)
Theorem find_resolves (n : string) (s : obs) :
  snd (find n s) = logged s [GET_prj_meta n] /\
  ((exists msg, fst (find n s) = Raise (ProjectNotFound msg))
   <-> prj_meta s n = inl (HTTPError 404)) /\
  (forall raw, prj_meta s n = inr (Malformed raw) ->
               fst (find n s) = Raise XMLSyntaxError) /\
  (forall r, fst (find n s) = Return r <->
             exists content m,
               prj_meta s n = inr content /\ parse content = inr m /\
               r = mkRemoteProject n (Some m)).
Proof.
  rewrite find_eq. simpl. split; [reflexivity|].
  unfold resolve, load_result.
  destruct (prj_meta s n) as [[code|reason]|content] eqn:Hmeta; simpl.
  - destruct (Z.eqb_spec code 404) as [->|Hne]; simpl.
    + split; [split; eauto|]. split; [discriminate|].
      intros r. split; [discriminate|]. intros (c & m & H & _). discriminate.
    + split; [split; [intros [msg H]; discriminate | congruence]|].
      split; [discriminate|].
      intros r. split; [discriminate|]. intros (c & m & H & _). discriminate.
  - split; [split; [intros [msg H]; discriminate | discriminate]|].
    split; [discriminate|].
    intros r. split; [discriminate|]. intros (c & m & H & _). discriminate.
  - split.
    { split; [|discriminate]. intros [msg H].
      destruct (parse content) as [e|m] eqn:Hp; simpl in H; [|discriminate].
      inversion H; subst.
      destruct content as [root|raw]; [|discriminate].
      apply parse_error_kind in Hp. discriminate. }
    split.
    { intros raw Hraw. inversion Hraw; subst. reflexivity. }
    intros r. destruct (parse content) as [e|m] eqn:Hp; simpl.
    + split; [discriminate|]. intros (c & m & Hc & Hm & _).
      inversion Hc; subst. congruence.
    + split.
      * intros H. inversion H; subst. eauto.
      * intros (c & m' & Hc & Hm & ->). inversion Hc; subst.
        rewrite Hp in Hm. now inversion Hm.
Qed.

(** ** The outcomes of creating a subproject *)

(** X4: a project that [create_subproject] has returned is found again:
    [find] on its name, on the server as the call left it, returns the
    same project with the same metadata. *)
Theorem create_subproject_then_find
  (self : RemoteProject) (name0 : string) (title description : option string)
  (s s' : obs) (r : RemoteProject) :
  create_subproject self name0 title description s = (Return r, s') ->
  find (name r) s' = (Return r, logged s' [GET_prj_meta (name r)]).
Proof.
  rewrite create_subproject_eq. cbv zeta.
  destruct (load_result (prj_meta s (name self)) (name self))
    as [e|[root|raw]]; try discriminate.
  destruct (subproject_root _ title description root) as [e|root'] eqn:Hroot;
    [discriminate|].
  destruct (put_refused s _ _); [discriminate|].
  destruct (parse (Markup root)) as [e|m] eqn:Hp; [discriminate|].
  intros H. inversion H; subst. clear H.
  rewrite find_eq. f_equal. simpl. unfold resolve. simpl.
  rewrite String.eqb_refl. simpl.
  now rewrite (parse_subproject_root _ _ _ _ _ Hroot), Hp.
Qed.

Lemma create_subproject_then_find_witness :
  let s' := snd (create_subproject (RemoteProject_init "T") "sub" None None
                   wine_server) in
  find "T:sub" s'
  = (Return (mkRemoteProject "T:sub" (Some (mkProjectMetadata ["R1"]))),
     logged s' [GET_prj_meta "T:sub"]).
Proof.
  intros s'.
  apply (create_subproject_then_find (RemoteProject_init "T") "sub" None None
           wine_server s' (mkRemoteProject "T:sub"
                             (Some (mkProjectMetadata ["R1"])))).
  reflexivity.
Defined.

(** X5: when [create_subproject] fails on a parent whose meta, if it is
    markup, parses, nothing has been stored.  Either the server has only
    logged the GET of the parent: the load failed, the answer was not
    markup, or lxml refused the full name or a text with [ValueError];
    or it has logged that GET and a PUT that it refused, whose failure
    is the one raised. *)
Theorem create_subproject_failure_stores_nothing
  (self : RemoteProject) (name0 : string) (title description : option string)
  (s s' : obs) (e : exn) :
  (forall root e', prj_meta s (name self) = inr (Markup root) ->
                   parse (Markup root) <> inl e') ->
  create_subproject self name0 title description s = (Raise e, s') ->
  (s' = logged s [GET_prj_meta (name self)] /\
   (load_result (prj_meta s (name self)) (name self) = inl e \/
    e = XMLSyntaxError \/ e = incompatible)) \/
  exists doc te,
    put_refused s (name self ++ ":" ++ name0)%string doc = Some te /\
    e = Transport te /\
    s' = logged s [GET_prj_meta (name self);
                   PUT_prj_meta (name self ++ ":" ++ name0)%string doc].
Proof.
  intros Hparse. rewrite create_subproject_eq. cbv zeta.
  destruct (load_result (prj_meta s (name self)) (name self))
    as [e0|[root|raw]] eqn:Hload.
  - intros H; inversion H; subst. left. auto.
  - assert (Hmeta : prj_meta s (name self) = inr (Markup root)).
    { unfold load_result in Hload.
      destruct (prj_meta s (name self)) as [[code|reason]|content];
        [destruct (Z.eqb code 404); discriminate | discriminate |].
      now inversion Hload. }
    destruct (subproject_root _ title description root) as [e0|root'] eqn:Hroot.
    + intros H; inversion H; subst. left. split; [reflexivity|].
      right; right. now apply subproject_root_error in Hroot.
    + destruct (put_refused s _ _) as [te|] eqn:Hput.
      * intros H. inversion H; subst. right. eauto.
      * destruct (parse (Markup root)) as [e'|m] eqn:Hp; [|discriminate].
        exfalso. apply (Hparse root e' Hmeta Hp).
  - intros H; inversion H; subst. left. auto.
Qed.

Lemma create_subproject_failure_stores_nothing_witness :
  snd (create_subproject (RemoteProject_init "T")
         ("su" ++ String (ascii_of_nat 0) "b") None None wine_server)
  = logged wine_server [GET_prj_meta "T"]
  /\ fst (create_subproject (RemoteProject_init "T")
            ("su" ++ String (ascii_of_nat 0) "b") None None wine_server)
     = Raise incompatible.
Proof.
  destruct (create_subproject_failure_stores_nothing
              (RemoteProject_init "T") ("su" ++ String (ascii_of_nat 0) "b")
              None None wine_server
              (snd (create_subproject (RemoteProject_init "T")
                      ("su" ++ String (ascii_of_nat 0) "b") None None
                      wine_server))
              incompatible)
    as [(H & _)|(doc & te & Hput & _)].
  - intros root e' H Hp. inversion H; subst. discriminate.
  - reflexivity.
  - split; [exact H | reflexivity].
  - discriminate.
Defined.

(** X6: [create_subproject] saves before it parses.  On a parent whose
    meta has a [link] child without [project] attribute, with a full
    name and texts that lxml accepts and a server that accepts the PUT,
    the call raises [KeyError] and yet the document of the subproject is
    stored on the server. *)
Theorem create_subproject_saves_before_parsing
  (self : RemoteProject) (name0 : string) (title description : option string)
  (s : obs) (root : element) (e : exn) :
  let fullname := (name self ++ ":" ++ name0)%string in
  prj_meta s (name self) = inr (Markup root) ->
  parse (Markup root) = inl e ->
  xml_compatible fullname = true ->
  text_fits "title" title root ->
  text_fits "description" description root ->
  (forall root',
     subproject_root fullname title description root = inr root' ->
     put_refused s fullname (Markup root') = None) ->
  e = KeyError "project" /\
  exists root',
    subproject_root fullname title description root = inr root' /\
    fst (create_subproject self name0 title description s) = Raise e /\
    prj_meta (snd (create_subproject self name0 title description s)) fullname
    = inr (Markup root').
Proof.
  intros fullname Hmeta Hparse Hname Htitle Hdescription Hput.
  split; [now apply parse_error_kind in Hparse|].
  destruct (subproject_root_fits fullname title description root
              Hname Htitle Hdescription) as (root' & Hroot).
  exists root'. split; [exact Hroot|].
  rewrite create_subproject_eq. cbv zeta. rewrite Hmeta.
  cbn [load_result]. fold fullname.
  rewrite Hroot, (Hput root' Hroot), Hparse.
  cbn [fst snd prj_meta logged with_meta].
  now rewrite String.eqb_refl.
Qed.

Lemma create_subproject_saves_before_parsing_witness :
  fst (create_subproject (RemoteProject_init "T") "sub" None None
         broken_link_server)
  = Raise (KeyError "project")
  /\ exists root',
      prj_meta (snd (create_subproject (RemoteProject_init "T") "sub" None
                       None broken_link_server)) "T:sub" = inr (Markup root').
Proof.
  destruct (create_subproject_saves_before_parsing
              (RemoteProject_init "T") "sub" None None broken_link_server
              (Element "project" [("name", "T")] None
                 [Element "title" [] None [] None;
                  Element "link" [] None [] None] None)
              (KeyError "project") eq_refl eq_refl eq_refl)
    as (_ & root' & _ & Hraise & Hstored).
  - intros _ t H. discriminate.
  - intros _ t H. discriminate.
  - intros root' _. reflexivity.
  - split; [exact Hraise|]. exists root'. exact Hstored.
Defined.

(** ** The requests of a package query *)

Lemma merge_projects_log releasename linked :
  forall d s o s',
    merge_projects releasename linked d s = (o, s') ->
    exists asked rest,
      linked = asked ++ rest /\
      s' = logged s (map (fun p => GET_packagelist (name p)) asked) /\
      (forall d', o = Return d' -> rest = []).
Proof.
  induction linked as [|project linked IH]; intros d s o s' Hrun;
    simpl in Hrun.
  - inversion Hrun; subst. exists [], []. simpl. rewrite logged_nil. auto.
  - unfold bind in Hrun. rewrite package_list_eq in Hrun.
    destruct (packagelist s (name project)) as [e|l].
    + inversion Hrun; subst. exists [project], linked.
      split; [reflexivity|]. split; [reflexivity|]. discriminate.
    + destruct (IH _ _ _ _ Hrun) as (asked & rest & -> & -> & Hret).
      exists (project :: asked), rest. simpl.
      split; [reflexivity|]. split; [now rewrite logged_logged|]. exact Hret.
Qed.

(** X7: a successful [get_packages] with inheritance has sent the
    listing request of the project itself, then one GET of the meta of
    each project of the closure, then one listing request for each of
    them in the same order; the closure holds each reachable name once,
    so that the call costs one request plus two per linked project. *)
Theorem get_packages_inherited_requests
  (releasename : RemotePackage.t -> string) (fuel : nat)
  (self : RemoteProject) (s s' : obs) (pkgs : list RemotePackage.t) :
  get_packages releasename fuel self true s = (Return pkgs, s') ->
  exists m closure,
    metadata self = Some m /\
    NoDup closure /\
    (forall n, reachable (prj_meta s) (linked_projects_names m) n
               <-> In n closure) /\
    s' = logged s (GET_packagelist (name self)
                   :: map GET_prj_meta closure ++ map GET_packagelist closure).
Proof.
  unfold get_packages, bind. rewrite package_list_eq.
  destruct (packagelist s (name self)) as [e|l]; [discriminate|].
  unfold metadata_of. destruct (metadata self) as [m|]; [|discriminate].
  simpl. set (s1 := logged s [GET_packagelist (name self)]).
  unfold linked_projects.
  destruct (linked_projects_loop fuel true (linked_projects_names m) [] s1)
    as [[linked| |] s2] eqn:Hwalk; try discriminate.
  destruct (walk_spec (prj_meta s) (linked_projects_names m) fuel
              _ _ s1 _ _ eq_refl
              (walk_inv_init (prj_meta s) (linked_projects_names m)) Hwalk)
    as (fetched & Hs2 & Hnd & _ & Hret).
  destruct (Hret linked eq_refl) as (Hnames & Hinv). simpl in Hnames, Hnd.
  unfold _merge_inherited, bind.
  destruct (merge_projects releasename linked _ s2) as [[d| |] s3] eqn:Hm;
    try discriminate.
  intros H. inversion H; subst pkgs s'. clear H.
  destruct (merge_projects_log _ _ _ _ _ _ Hm) as (asked & rest & Hl & Hs3 & Hr).
  rewrite (Hr d eq_refl), app_nil_r in Hl. subst asked.
  exists m, fetched. split; [reflexivity|]. split; [exact Hnd|]. split.
  - intros n. rewrite <- Hnames. now apply walk_inv_done.
  - rewrite Hs3, Hs2. unfold s1. rewrite !logged_logged. simpl.
    now rewrite <- Hnames, !map_map.
Qed.

Lemma get_packages_inherited_requests_witness :
  exists m closure,
    Some (mkProjectMetadata ["A"; "B"]) = Some m /\
    NoDup closure /\
    (forall n, reachable (prj_meta cyclic_server) (linked_projects_names m) n
               <-> In n closure) /\
    snd (get_packages releasename_ex 8
           (mkRemoteProject "A" (Some (mkProjectMetadata ["A"; "B"])))
           true cyclic_server)
    = logged cyclic_server
        (GET_packagelist "A"
         :: map GET_prj_meta closure ++ map GET_packagelist closure).
Proof.
  exact (get_packages_inherited_requests releasename_ex 8
           (mkRemoteProject "A" (Some (mkProjectMetadata ["A"; "B"])))
           cyclic_server
           (snd (get_packages releasename_ex 8
                   (mkRemoteProject "A" (Some (mkProjectMetadata ["A"; "B"])))
                   true cyclic_server))
           [RemotePackage.mk "a" "A"; RemotePackage.mk "b" "B";
            RemotePackage.mk "c" "C"]
           eq_refl).
Defined.

Lemma walk_log fuel recursive :
  forall to_process result s o s',
    linked_projects_loop fuel recursive to_process result s = (o, s') ->
    exists fetched, s' = logged s (map GET_prj_meta fetched).
Proof.
  induction fuel as [|fuel IH]; intros to_process result s o s' Hrun.
  - exists []. simpl. rewrite logged_nil.
    destruct to_process; simpl in Hrun; now inversion Hrun.
  - destruct to_process as [|n to_process]; simpl in Hrun.
    { exists []. simpl. rewrite logged_nil. now inversion Hrun. }
    destruct (forallb _ result); [|now apply IH in Hrun].
    unfold bind in Hrun. rewrite find_eq in Hrun.
    destruct (resolve (prj_meta s) n) as [e|r]; simpl in Hrun.
    { exists [n]. now inversion Hrun. }
    assert (Hnext : exists fetched,
               s' = logged (logged s [GET_prj_meta n])
                      (map GET_prj_meta fetched)).
    { destruct recursive.
      - unfold metadata_of in Hrun. destruct (metadata r); simpl in Hrun.
        + now apply IH in Hrun.
        + exists []. simpl. rewrite logged_nil. now inversion Hrun.
      - now apply IH in Hrun. }
    destruct Hnext as (fetched & ->). exists (n :: fetched).
    now rewrite logged_logged.
Qed.

(** X8: [get_packages] only reads.  Whatever its outcome, with or
    without inheritance, the server it leaves has the same metas and
    listings as before and has logged no PUT. *)
Theorem get_packages_only_reads
  (releasename : RemotePackage.t -> string) (fuel : nat)
  (self : RemoteProject) (inherited : bool) (s : obs) :
  exists requests,
    snd (get_packages releasename fuel self inherited s) = logged s requests /\
    Forall (fun r => is_put r = false) requests.
Proof.
  unfold get_packages, bind. rewrite package_list_eq.
  destruct (packagelist s (name self)) as [e|l].
  { exists [GET_packagelist (name self)]. split; [reflexivity|].
    repeat constructor. }
  destruct inherited.
  2:{ exists [GET_packagelist (name self)]. split; [reflexivity|].
      repeat constructor. }
  unfold metadata_of. destruct (metadata self) as [m|]; simpl.
  2:{ exists [GET_packagelist (name self)]. split; [reflexivity|].
      repeat constructor. }
  unfold linked_projects.
  destruct (linked_projects_loop fuel true (linked_projects_names m) []
              (logged s [GET_packagelist (name self)]))
    as [o s2] eqn:Hwalk.
  destruct (walk_log _ _ _ _ _ _ _ Hwalk) as (fetched & ->).
  rewrite logged_logged.
  assert (Hgets : Forall (fun r => is_put r = false)
                    ([GET_packagelist (name self)]
                       ++ map GET_prj_meta fetched)).
  { apply Forall_app. split; [repeat constructor|].
    apply Forall_forall. intros r Hr. apply in_map_iff in Hr.
    destruct Hr as (n & <- & _). reflexivity. }
  destruct o as [linked|e|]; simpl; eauto.
  unfold _merge_inherited, bind.
  destruct (merge_projects releasename linked _ _) as [o s3] eqn:Hm.
  destruct (merge_projects_log _ _ _ _ _ _ Hm) as (asked & rest & _ & -> & _).
  rewrite logged_logged.
  eexists. split; [destruct o; reflexivity|].
  apply Forall_app. split; [exact Hgets|].
  apply Forall_forall. intros r Hr. apply in_map_iff in Hr.
  destruct Hr as (p & <- & _). reflexivity.
Qed.

(** ** Where the inherited packages come from *)

(** X9: every inherited package of a merged result belongs to a project
    other than the one asked, which is reachable through its links and
    lists the package; the packages of the project asked are never
    inherited from itself, even when its links lead back to it. *)
Theorem inherited_packages_provenance
  (releasename : RemotePackage.t -> string) (fuel : nat)
  (self : RemoteProject) (s s' : obs) (pkgs : list RemotePackage.t) :
  get_packages releasename fuel self true s = (Return pkgs, s') ->
  exists m l inherited,
    metadata self = Some m /\
    packagelist s (name self) = inr l /\
    pkgs = map (fun n => RemotePackage.mk n (name self)) (nub l) ++ inherited /\
    forall p, In p inherited ->
      RemotePackage.project p <> name self /\
      reachable (prj_meta s) (linked_projects_names m)
        (RemotePackage.project p) /\
      exists lp, packagelist s (RemotePackage.project p) = inr lp /\
                 In (RemotePackage.name p) lp.
Proof.
  intros Hrun.
  destruct (get_packages_inherited_shape _ _ _ _ _ _ Hrun)
    as (m & l & linked & inherited & Hm & Hl & Hreach & Hpkgs & _ & Hall & _).
  exists m, l, inherited. repeat split; auto.
  - rewrite Forall_forall in Hall. destruct (Hall p H) as (Hc & _ & _ & Hn).
    apply candidates_in in Hc.
    destruct Hc as (project & lp & Hp & Hlp & Hin & Heq).
    rewrite Heq. simpl. intros Hsame. rewrite Hsame, Hl in Hlp.
    inversion Hlp; subst. contradiction.
  - rewrite Forall_forall in Hall. destruct (Hall p H) as (Hc & _).
    apply candidates_in in Hc.
    destruct Hc as (project & lp & Hp & Hlp & Hin & Heq).
    rewrite Heq. simpl. apply Hreach. now apply in_map.
  - rewrite Forall_forall in Hall. destruct (Hall p H) as (Hc & _).
    apply candidates_in in Hc.
    destruct Hc as (project & lp & Hp & Hlp & Hin & Heq).
    rewrite Heq. simpl. eauto.
Qed.

Lemma inherited_packages_provenance_witness :
  exists m l inherited,
    Some (mkProjectMetadata ["A"; "B"]) = Some m /\
    packagelist cyclic_server "A" = inr l /\
    [RemotePackage.mk "a" "A"; RemotePackage.mk "b" "B";
     RemotePackage.mk "c" "C"]
    = map (fun n => RemotePackage.mk n "A") (nub l) ++ inherited /\
    forall p, In p inherited ->
      RemotePackage.project p <> "A" /\
      reachable (prj_meta cyclic_server) (linked_projects_names m)
        (RemotePackage.project p) /\
      exists lp, packagelist cyclic_server (RemotePackage.project p) = inr lp
                 /\ In (RemotePackage.name p) lp.
Proof.
  exact (inherited_packages_provenance releasename_ex 8
           (mkRemoteProject "A" (Some (mkProjectMetadata ["A"; "B"])))
           cyclic_server _ _ eq_refl).
Defined.

(** ** Direct links come first *)

Lemma walk_grows fuel recursive :
  forall to_process result s res s',
    linked_projects_loop fuel recursive to_process result s = (Return res, s') ->
    exists rest, res = result ++ rest.
Proof.
  induction fuel as [|fuel IH]; intros to_process result s res s' Hrun.
  - destruct to_process; simpl in Hrun; inversion Hrun.
    exists []. now rewrite app_nil_r.
  - destruct to_process as [|n to_process]; simpl in Hrun.
    { inversion Hrun. exists []. now rewrite app_nil_r. }
    destruct (forallb _ result); [|now apply IH in Hrun].
    unfold bind in Hrun. rewrite find_eq in Hrun.
    destruct (resolve (prj_meta s) n) as [e|r]; simpl in Hrun;
      [discriminate|].
    assert (Hnext : exists rest, res = (result ++ [r]) ++ rest).
    { destruct recursive.
      - unfold metadata_of in Hrun. destruct (metadata r); simpl in Hrun.
        + now apply IH in Hrun.
        + discriminate.
      - now apply IH in Hrun. }
    destruct Hnext as (rest & ->). exists (r :: rest).
    now rewrite <- app_assoc.
Qed.

Lemma walk_prefix to_process :
  forall fuel fuel' queued result s s0 direct closure s1 s2,
    prj_meta s0 = prj_meta s ->
    linked_projects_loop fuel false to_process result s = (Return direct, s1) ->
    linked_projects_loop fuel' true (to_process ++ queued) result s0
    = (Return closure, s2) ->
    exists rest, closure = direct ++ rest.
Proof.
  induction to_process as [|n to_process IH];
    intros fuel fuel' queued result s s0 direct closure s1 s2 Hs Hflat Hrec.
  - rewrite walk_done in Hflat. inversion Hflat; subst.
    now apply walk_grows in Hrec.
  - destruct fuel as [|fuel]; [discriminate|].
    destruct fuel' as [|fuel']; [discriminate|].
    simpl in Hflat, Hrec.
    destruct (forallb _ result); [|now apply (IH _ _ _ _ _ _ _ _ _ _ Hs Hflat Hrec)].
    unfold bind in Hflat, Hrec. rewrite find_eq in Hflat, Hrec.
    rewrite Hs in Hrec.
    destruct (resolve (prj_meta s) n) as [e|r]; simpl in Hflat, Hrec;
      [discriminate|].
    unfold metadata_of in Hrec. destruct (metadata r) as [m|];
      simpl in Hrec; [|discriminate].
    rewrite <- app_assoc in Hrec.
    eapply IH; [|exact Hflat|exact Hrec]. exact Hs.
Qed.

(** X10: the directly linked projects come first in the closure: what
    [linked_projects] returns without recursion is a prefix of what it
    returns with recursion on the same server. *)
Theorem direct_links_head_closure
  (self : ProjectMetadata) (fuel fuel' : nat) (s s1 s2 : obs)
  (direct closure : list RemoteProject) :
  linked_projects fuel self false s = (Return direct, s1) ->
  linked_projects fuel' self true s = (Return closure, s2) ->
  exists rest, closure = direct ++ rest.
Proof.
  unfold linked_projects. intros Hflat Hrec.
  rewrite <- (app_nil_r (linked_projects_names self)) in Hrec.
  exact (walk_prefix _ _ _ _ _ _ _ _ _ _ _ eq_refl Hflat Hrec).
Qed.

Lemma direct_links_head_closure_witness :
  exists rest,
    [mkRemoteProject "A" (Some (mkProjectMetadata ["A"; "B"]));
     mkRemoteProject "B" (Some (mkProjectMetadata ["C"; "A"]));
     mkRemoteProject "C" (Some (mkProjectMetadata ["B"]))]
    = [mkRemoteProject "A" (Some (mkProjectMetadata ["A"; "B"]));
       mkRemoteProject "B" (Some (mkProjectMetadata ["C"; "A"]))] ++ rest.
Proof.
  exact (direct_links_head_closure (mkProjectMetadata ["A"; "B"]) 2 8
           cyclic_server _ _ _ _ eq_refl eq_refl).
Defined.

(** ** What the two patterns match *)

Lemma strip_prefix_spec p s r :
  strip_prefix p s = Some r <-> s = (p ++ r)%string.
Proof.
  revert s. induction p as [|a p IH]; intros s; simpl.
  - split; [now inversion 1 | now intros ->].
  - destruct s as [|b s]; [split; discriminate|].
    destruct (Ascii.eqb_spec a b) as [->|Hne].
    + rewrite IH. split; [now intros -> | now inversion 1].
    + split; [discriminate | intros H; inversion H; congruence].
Qed.

Lemma digits_to_end_spec s :
  digits_to_end s = true <->
  exists ds,
    forallb is_digit (list_ascii_of_string ds) = true /\
    (s = ds \/ s = (ds ++ String newline EmptyString)%string).
Proof.
  induction s as [|c s IH]; simpl.
  - split; [|reflexivity]. intros _. exists EmptyString. auto.
  - destruct (is_digit c) eqn:Hc.
    + rewrite IH. split.
      * intros (ds & Hds & Hs). exists (String c ds). simpl. rewrite Hc, Hds.
        split; [reflexivity|]. destruct Hs as [->| ->]; auto.
      * intros (ds & Hds & Hs). destruct ds as [|d ds].
        -- destruct Hs as [Hs|Hs]; [discriminate|]. simpl in Hs.
           inversion Hs; subst. discriminate.
        -- simpl in Hds. apply andb_prop in Hds. destruct Hds as [_ Hds].
           exists ds. split; [exact Hds|].
           destruct Hs as [Hs|Hs]; inversion Hs; auto.
    + split.
      * intros H. apply andb_prop in H. destruct H as [Hn Hs].
        apply Ascii.eqb_eq in Hn. apply String.eqb_eq in Hs. subst.
        exists EmptyString. auto.
      * intros (ds & Hds & Hs). destruct ds as [|d ds].
        -- destruct Hs as [Hs|Hs]; [discriminate|]. simpl in Hs.
           inversion Hs; subst. reflexivity.
        -- simpl in Hds. apply andb_prop in Hds. destruct Hds as [Hd _].
           destruct Hs as [Hs|Hs]; inversion Hs; subst; congruence.
Qed.

(** X11: the first pattern matches exactly the names made of
    [patchinfo.] and one or more decimal digits, and those names
    followed by one newline, which Python's [$] lets through; the second
    matches exactly the names that start with [kernel-livepatch-]. *)
Theorem patterns_match_exactly (s : string) :
  (patchinfo_re s = true <->
   exists ds,
     ds <> EmptyString /\
     forallb is_digit (list_ascii_of_string ds) = true /\
     (s = ("patchinfo." ++ ds)%string \/
      s = ("patchinfo." ++ ds ++ String newline EmptyString)%string)) /\
  (kernel_live_patch_re s = true <->
   exists rest, s = ("kernel-livepatch-" ++ rest)%string).
Proof.
  split.
  - unfold patchinfo_re.
    destruct (strip_prefix "patchinfo." s) as [r|] eqn:Hp.
    + apply strip_prefix_spec in Hp. subst s. destruct r as [|c r].
      * split; [discriminate|]. intros (ds & Hne & Hds & Hs).
        destruct ds; [contradiction|].
        destruct Hs as [Hs|Hs]; simpl in Hs; inversion Hs.
      * rewrite andb_true_iff, digits_to_end_spec. split.
        -- intros (Hc & ds & Hds & Hr). exists (String c ds).
           split; [discriminate|]. simpl. rewrite Hc, Hds.
           split; [reflexivity|]. destruct Hr as [->| ->]; auto.
        -- intros (ds & Hne & Hds & Hs). destruct ds as [|d ds];
             [contradiction|].
           simpl in Hds. apply andb_prop in Hds. destruct Hds as [Hd Hds].
           destruct Hs as [Hs|Hs]; simpl in Hs; inversion Hs; subst;
             (split; [exact Hd|]); exists ds; auto.
    + split; [discriminate|]. intros (ds & _ & _ & Hs).
      assert (Hsome : exists r, strip_prefix "patchinfo." s = Some r).
      { destruct Hs as [->| ->]; eexists; apply strip_prefix_spec;
          reflexivity. }
      destruct Hsome as (r & Hr). congruence.
  - unfold kernel_live_patch_re.
    destruct (strip_prefix "kernel-livepatch-" s) as [r|] eqn:Hp.
    + apply strip_prefix_spec in Hp. split; eauto.
    + split; [discriminate|]. intros (rest & Hs).
      apply strip_prefix_spec in Hs. congruence.
Qed.

(** ** A project without links *)

Lemma nub_from_nodup_id l :
  forall seen,
    NoDup l -> (forall x, In x l -> ~ In x seen) -> nub_from seen l = l.
Proof.
  induction l as [|x l IH]; intros seen Hnd Hseen; simpl; [reflexivity|].
  inversion Hnd as [|? ? Hx Hnd']; subst.
  assert (Hn : existsb (String.eqb x) seen = false)
    by (apply existsb_eqb_not_in, Hseen; now left).
  rewrite Hn. f_equal. apply IH; [exact Hnd'|].
  intros y Hy Hin. apply in_app_or in Hin. destruct Hin as [Hin|[<-|[]]].
  - apply (Hseen y); [now right | exact Hin].
  - contradiction.
Qed.

(** X12: on a project whose metadata has no links, [get_packages] with
    inheritance sends the listing request only, whatever the fuel, and
    returns the project's own packages, each listed name once; when the
    listing has no repeated name this is the result of [get_packages]
    without inheritance. *)
Theorem get_packages_without_links
  (releasename : RemotePackage.t -> string) (fuel : nat)
  (self : RemoteProject) (m : ProjectMetadata) (s : obs) (l : list string) :
  metadata self = Some m ->
  linked_projects_names m = [] ->
  packagelist s (name self) = inr l ->
  get_packages releasename fuel self true s
  = (Return (map (fun n => RemotePackage.mk n (name self)) (nub l)),
     logged s [GET_packagelist (name self)]) /\
  (NoDup l ->
   get_packages releasename fuel self true s
   = get_packages releasename fuel self false s).
Proof.
  intros Hm Hlinks Hl.
  assert (Hrun : get_packages releasename fuel self true s
                 = (Return (map (fun n => RemotePackage.mk n (name self))
                              (nub l)),
                    logged s [GET_packagelist (name self)])).
  { unfold get_packages, bind. rewrite package_list_eq, Hl.
    unfold metadata_of. rewrite Hm. simpl.
    unfold linked_projects. rewrite Hlinks, walk_done. simpl.
    unfold _merge_inherited, bind. simpl. unfold ret.
    now rewrite dict_by_name_own, own_entries_values. }
  split; [exact Hrun|].
  intros Hnd. rewrite Hrun.
  unfold get_packages, bind. rewrite package_list_eq, Hl. unfold ret.
  unfold nub. rewrite nub_from_nodup_id; auto.
Qed.

Lemma get_packages_without_links_witness :
  get_packages releasename_ex 0
    (mkRemoteProject "R2" (Some (mkProjectMetadata []))) true wine_server
  = (Return [RemotePackage.mk "foo.99" "R2"],
     logged wine_server [GET_packagelist "R2"]).
Proof.
  exact (proj1 (get_packages_without_links releasename_ex 0
                  (mkRemoteProject "R2" (Some (mkProjectMetadata [])))
                  (mkProjectMetadata []) wine_server ["foo.99"]
                  eq_refl eq_refl eq_refl)).
Defined.

(** ** Names in a merged result *)

Lemma map_injective_nodup {A B} (f g : A -> B) (l : list A) :
  (forall x y, In x l -> In y l -> f x = f y -> g x = g y) ->
  NoDup (map g l) -> NoDup (map f l).
Proof.
  induction l as [|a l IH]; simpl; intros Hfg Hnd; [constructor|].
  inversion Hnd as [|? ? Ha Hnd']; subst. constructor.
  - intros Hin. apply in_map_iff in Hin. destruct Hin as (b & Hb & Hbl).
    apply Ha. apply in_map_iff. exists b. split; [|exact Hbl].
    apply Hfg; auto.
  - apply IH; auto.
Qed.

(** X13: when the release name of a package depends on its name only,
    no two packages of a merged result have the same name. *)
Theorem merged_names_unique
  (releasename : RemotePackage.t -> string) (fuel : nat)
  (self : RemoteProject) (s s' : obs) (pkgs : list RemotePackage.t) :
  (forall p q, RemotePackage.name p = RemotePackage.name q ->
               releasename p = releasename q) ->
  get_packages releasename fuel self true s = (Return pkgs, s') ->
  NoDup (map RemotePackage.name pkgs).
Proof.
  intros Hrn Hrun.
  destruct (get_packages_inherited_shape _ _ _ _ _ _ Hrun)
    as (m & l & linked & inherited & _ & _ & _ & -> & Hnd & Hall & _).
  rewrite map_app, map_map. simpl. rewrite map_id.
  apply NoDup_app_remove_l in Hnd as Hinh.
  apply NoDup_app.
  - apply nub_from_nodup.
  - apply (map_injective_nodup RemotePackage.name releasename); auto.
  - intros n Hown Hin. apply in_map_iff in Hin. destruct Hin as (p & <- & Hp).
    rewrite Forall_forall in Hall. destruct (Hall p Hp) as (_ & _ & _ & Hn).
    apply Hn. apply nub_from_in in Hown. tauto.
Qed.

Lemma merged_names_unique_witness :
  NoDup (map RemotePackage.name
           [RemotePackage.mk "wine" "T"; RemotePackage.mk "foo" "R1"]).
Proof.
  apply (merged_names_unique releasename_ex 2
           (mkRemoteProject "T" (Some (mkProjectMetadata ["R1"])))
           wine_server
           (snd (get_packages releasename_ex 2
                   (mkRemoteProject "T" (Some (mkProjectMetadata ["R1"])))
                   true wine_server))).
  - intros p q H. unfold releasename_ex. now rewrite H.
  - reflexivity.
Defined.

(** ** The metas that the test fixture writes *)

Lemma sub_elements_children tag attrib_of values :
  forall root,
    Forall (fun v => forallb (fun kv => xml_compatible (snd kv)) (attrib_of v)
                     = true) values ->
    exists root',
      OBSLocal.sub_elements root tag attrib_of values = inr root' /\
      ET.children root'
      = ET.children root
        ++ map (fun v => Element tag (attrib_of v) None [] None) values.
Proof.
  induction values as [|v values IH]; intros root Hall; simpl.
  - exists root. now rewrite app_nil_r.
  - inversion Hall as [|? ? Hv Hrest]; subst.
    unfold OBSLocal.SubElement. rewrite Hv.
    destruct (IH (OBSLocal.append_child root
                    (Element tag (attrib_of v) None [] None)) Hrest)
      as (root' & Hrun & Hchildren).
    exists root'. split; [exact Hrun|]. rewrite Hchildren.
    destruct root. simpl. now rewrite <- app_assoc.
Qed.

Lemma compatible_attribs (attrib_of : string -> Dict.t string) values :
  (forall v, xml_compatible v = true ->
             forallb (fun kv => xml_compatible (snd kv)) (attrib_of v) = true) ->
  Forall (fun v => xml_compatible v = true) values ->
  Forall (fun v => forallb (fun kv => xml_compatible (snd kv)) (attrib_of v)
                   = true) values.
Proof. intros H Hall. eapply Forall_impl; [|exact Hall]. exact H. Qed.

Lemma update_meta_root_children fromstring_text self reviewer maintainer links
  with_repo :
  fromstring_text (OBSLocal.meta_text (OBSLocal.name self))
  = inr (OBSLocal.template (OBSLocal.name self)) ->
  Forall (fun v => xml_compatible v = true)
    (OBSLocal.get_list reviewer "groups" ++ OBSLocal.get_list reviewer "users"
     ++ OBSLocal.get_list maintainer "groups"
     ++ OBSLocal.get_list maintainer "users" ++ links) ->
  exists root,
    OBSLocal.update_meta_root fromstring_text self reviewer maintainer links
      with_repo = inr root /\
    ET.children root
    = ET.children (OBSLocal.template (OBSLocal.name self))
      ++ map (fun g => Element "group" [("groupid", g); ("role", "reviewer")]
                         None [] None)
           (OBSLocal.get_list reviewer "groups")
      ++ map (fun u => Element "person" [("userid", u); ("role", "reviewer")]
                         None [] None)
           (OBSLocal.get_list reviewer "users")
      ++ map (fun g => Element "group" [("groupid", g); ("role", "maintainer")]
                         None [] None)
           (OBSLocal.get_list maintainer "groups")
      ++ map (fun u => Element "person" [("userid", u); ("role", "maintainer")]
                         None [] None)
           (OBSLocal.get_list maintainer "users")
      ++ map (fun p => Element "link" [("project", p)] None [] None) links
      ++ (if with_repo
          then [Element "repository" [("name", "standard")] None
                  [Element "arch" [] (Some "x86_64") [] None] None]
          else []).
Proof.
  intros Hparser Hall.
  apply Forall_app in Hall. destruct Hall as [Hrg Hall].
  apply Forall_app in Hall. destruct Hall as [Hru Hall].
  apply Forall_app in Hall. destruct Hall as [Hmg Hall].
  apply Forall_app in Hall. destruct Hall as [Hmu Hlinks].
  assert (Hone : forall (k v : string), xml_compatible v = true ->
            forallb (fun kv : string * string => xml_compatible (snd kv))
              [(k, v)] = true).
  { intros k v Hv. simpl. now rewrite Hv. }
  assert (Htwo : forall (k role v : string),
            xml_compatible role = true -> xml_compatible v = true ->
            forallb (fun kv : string * string => xml_compatible (snd kv))
              [(k, v); ("role", role)] = true).
  { intros k role v Hrole Hv. simpl. now rewrite Hv, Hrole. }
  unfold OBSLocal.update_meta_root, OBSLocal.and_then. rewrite Hparser.
  destruct (sub_elements_children "group"
              (fun group => [("groupid", group); ("role", "reviewer")]) _
              (OBSLocal.template (OBSLocal.name self))
              (compatible_attribs _ _ (fun v => Htwo "groupid" "reviewer" v eq_refl) Hrg))
    as (root1 & -> & H1).
  destruct (sub_elements_children "person"
              (fun group => [("userid", group); ("role", "reviewer")]) _ root1
              (compatible_attribs _ _ (fun v => Htwo "userid" "reviewer" v eq_refl) Hru))
    as (root2 & -> & H2).
  destruct (sub_elements_children "group"
              (fun group => [("groupid", group); ("role", "maintainer")]) _ root2
              (compatible_attribs _ _ (fun v => Htwo "groupid" "maintainer" v eq_refl) Hmg))
    as (root3 & -> & H3).
  destruct (sub_elements_children "person"
              (fun group => [("userid", group); ("role", "maintainer")]) _ root3
              (compatible_attribs _ _ (fun v => Htwo "userid" "maintainer" v eq_refl) Hmu))
    as (root4 & -> & H4).
  destruct (sub_elements_children "link"
              (fun link => [("project", link)]) _ root4
              (compatible_attribs _ _ (Hone "project") Hlinks))
    as (root5 & -> & H5).
  destruct with_repo.
  - eexists. split; [reflexivity|]. destruct root5. simpl in *.
    rewrite H5, H4, H3, H2, H1. simpl. now rewrite <- !app_assoc.
  - exists root5. split; [reflexivity|].
    rewrite H5, H4, H3, H2, H1. now rewrite <- !app_assoc, app_nil_r.
Qed.

Lemma get_meta_children_app l1 l2 meta :
  OBSLocal.get_meta_children (l1 ++ l2) meta
  = match OBSLocal.get_meta_children l1 meta with
    | inr meta' => OBSLocal.get_meta_children l2 meta'
    | inl e => inl e
    end.
Proof.
  revert meta. induction l1 as [|c l1 IH]; intros meta; simpl; [reflexivity|].
  destruct (OBSLocal.get_meta_child meta c); [reflexivity | apply IH].
Qed.

Lemma get_meta_groups role gs :
  role = "reviewer" \/ role = "maintainer" ->
  forall meta,
    OBSLocal.get_meta_children
      (map (fun g => Element "group" [("groupid", g); ("role", role)]
                       None [] None) gs) meta
    = inr (fold_left (fun m g => OBSLocal.add_group role g m) gs meta).
Proof.
  intros Hrole. induction gs as [|g gs IH]; intros meta; simpl; [reflexivity|].
  unfold OBSLocal.get_meta_child. simpl.
  assert (Hk : OBSLocal.unknown_role role = false)
    by (destruct Hrole as [-> | ->]; reflexivity).
  unfold OBSLocal.attrib_item. simpl. rewrite Hk. apply IH.
Qed.

Lemma get_meta_users role us :
  role = "reviewer" \/ role = "maintainer" ->
  forall meta,
    OBSLocal.get_meta_children
      (map (fun u => Element "person" [("userid", u); ("role", role)]
                       None [] None) us) meta
    = inr (fold_left (fun m u => OBSLocal.add_user role u m) us meta).
Proof.
  intros Hrole. induction us as [|u us IH]; intros meta; simpl; [reflexivity|].
  unfold OBSLocal.get_meta_child. simpl.
  assert (Hk : OBSLocal.unknown_role role = false)
    by (destruct Hrole as [-> | ->]; reflexivity).
  unfold OBSLocal.attrib_item. simpl. rewrite Hk. apply IH.
Qed.

Lemma get_meta_links links :
  forall meta,
    OBSLocal.get_meta_children
      (map (fun p => Element "link" [("project", p)] None [] None) links) meta
    = inr (OBSLocal.mkMeta (OBSLocal.reviewer meta) (OBSLocal.maintainer meta)
             (OBSLocal.project_links meta ++ links) (OBSLocal.with_repo meta)).
Proof.
  induction links as [|p links IH]; intros meta; simpl.
  - rewrite app_nil_r. now destruct meta.
  - unfold OBSLocal.get_meta_child. simpl. rewrite IH. simpl.
    now rewrite <- app_assoc.
Qed.

Lemma add_groups_reviewer gs :
  forall rg ru m pl wr,
    fold_left (fun m g => OBSLocal.add_group "reviewer" g m) gs
      (OBSLocal.mkMeta (OBSLocal.mkRoles rg ru) m pl wr)
    = OBSLocal.mkMeta (OBSLocal.mkRoles (rg ++ gs) ru) m pl wr.
Proof.
  induction gs as [|g gs IH]; intros; simpl.
  - now rewrite app_nil_r.
  - unfold OBSLocal.add_group at 2. simpl. rewrite IH.
    now rewrite <- app_assoc.
Qed.

Lemma add_users_reviewer us :
  forall rg ru m pl wr,
    fold_left (fun m u => OBSLocal.add_user "reviewer" u m) us
      (OBSLocal.mkMeta (OBSLocal.mkRoles rg ru) m pl wr)
    = OBSLocal.mkMeta (OBSLocal.mkRoles rg (ru ++ us)) m pl wr.
Proof.
  induction us as [|u us IH]; intros; simpl.
  - now rewrite app_nil_r.
  - unfold OBSLocal.add_user at 2. simpl. rewrite IH.
    now rewrite <- app_assoc.
Qed.

Lemma add_groups_maintainer gs :
  forall r mg mu pl wr,
    fold_left (fun m g => OBSLocal.add_group "maintainer" g m) gs
      (OBSLocal.mkMeta r (OBSLocal.mkRoles mg mu) pl wr)
    = OBSLocal.mkMeta r (OBSLocal.mkRoles (mg ++ gs) mu) pl wr.
Proof.
  induction gs as [|g gs IH]; intros; simpl.
  - now rewrite app_nil_r.
  - unfold OBSLocal.add_group at 2. simpl. rewrite IH.
    now rewrite <- app_assoc.
Qed.

Lemma add_users_maintainer us :
  forall r mg mu pl wr,
    fold_left (fun m u => OBSLocal.add_user "maintainer" u m) us
      (OBSLocal.mkMeta r (OBSLocal.mkRoles mg mu) pl wr)
    = OBSLocal.mkMeta r (OBSLocal.mkRoles mg (mu ++ us)) pl wr.
Proof.
  induction us as [|u us IH]; intros; simpl.
  - now rewrite app_nil_r.
  - unfold OBSLocal.add_user at 2. simpl. rewrite IH.
    now rewrite <- app_assoc.
Qed.

Lemma get_meta_of_update_meta_root fromstring_text self reviewer maintainer
  links with_repo :
  fromstring_text (OBSLocal.meta_text (OBSLocal.name self))
  = inr (OBSLocal.template (OBSLocal.name self)) ->
  Forall (fun v => xml_compatible v = true)
    (OBSLocal.get_list reviewer "groups" ++ OBSLocal.get_list reviewer "users"
     ++ OBSLocal.get_list maintainer "groups"
     ++ OBSLocal.get_list maintainer "users" ++ links) ->
  exists root,
    OBSLocal.update_meta_root fromstring_text self reviewer maintainer links
      with_repo = inr root /\
    OBSLocal.get_meta_children (ET.children root)
      (OBSLocal.mkMeta (OBSLocal.mkRoles [] []) (OBSLocal.mkRoles [] []) []
         false)
    = inr (OBSLocal.mkMeta
             (OBSLocal.mkRoles (OBSLocal.get_list reviewer "groups")
                               (OBSLocal.get_list reviewer "users"))
             (OBSLocal.mkRoles (OBSLocal.get_list maintainer "groups")
                               (OBSLocal.get_list maintainer "users"))
             links with_repo).
Proof.
  intros Hparser Hall.
  destruct (update_meta_root_children fromstring_text self reviewer maintainer
              links with_repo Hparser Hall) as (root & Hroot & Hchildren).
  exists root. split; [exact Hroot|]. rewrite Hchildren.
  rewrite get_meta_children_app. simpl ET.children.
  cbn [OBSLocal.get_meta_children OBSLocal.get_meta_child ET.tag
         String.eqb Ascii.eqb Bool.eqb].
  rewrite get_meta_children_app, (get_meta_groups "reviewer") by auto.
  rewrite add_groups_reviewer.
  rewrite get_meta_children_app, (get_meta_users "reviewer") by auto.
  rewrite add_users_reviewer.
  rewrite get_meta_children_app, (get_meta_groups "maintainer") by auto.
  rewrite add_groups_maintainer.
  rewrite get_meta_children_app, (get_meta_users "maintainer") by auto.
  rewrite add_users_maintainer.
  rewrite get_meta_children_app, get_meta_links. simpl.
  destruct with_repo; reflexivity.
Qed.

(** X14: what [update_meta] has written, [get_meta] reads back.  When
    the parser reads the template filled with the name of the project as
    the tree of that template, lxml accepts the names given, and the
    server accepts the PUT, [get_meta] after [update_meta] returns the
    groups and users of the two roles and the linked projects, each list
    in the order given, and the repository flag. *)
Theorem update_meta_then_get_meta
  (fromstring_text : string -> exn + element)
  (self : OBSLocal.Project) (reviewer maintainer : Dict.t (list string))
  (links : list string) (with_repo : bool) (s : obs) :
  fromstring_text (OBSLocal.meta_text (OBSLocal.name self))
  = inr (OBSLocal.template (OBSLocal.name self)) ->
  Forall (fun v => xml_compatible v = true)
    (OBSLocal.get_list reviewer "groups" ++ OBSLocal.get_list reviewer "users"
     ++ OBSLocal.get_list maintainer "groups"
     ++ OBSLocal.get_list maintainer "users" ++ links) ->
  (forall doc, put_refused s (OBSLocal.name self) doc = None) ->
  exists s',
    OBSLocal.update_meta fromstring_text self reviewer maintainer links
      with_repo s = (Return tt, s') /\
    fst (OBSLocal.get_meta self s')
    = Return (OBSLocal.mkMeta
                (OBSLocal.mkRoles (OBSLocal.get_list reviewer "groups")
                                  (OBSLocal.get_list reviewer "users"))
                (OBSLocal.mkRoles (OBSLocal.get_list maintainer "groups")
                                  (OBSLocal.get_list maintainer "users"))
                links with_repo).
Proof.
  intros Hparser Hall Hput.
  destruct (get_meta_of_update_meta_root fromstring_text self reviewer
              maintainer links with_repo Hparser Hall)
    as (root & Hroot & Hread).
  unfold OBSLocal.update_meta, bind. rewrite Hroot. cbn [lift ret].
  unfold OBSLocal.custom_meta, http_PUT_meta, ET.tostring.
  rewrite Hput. eexists. split; [reflexivity|].
  unfold OBSLocal.get_meta, bind, http_GET_meta. simpl.
  rewrite String.eqb_refl. simpl.
  rewrite lift_eq, Hread. reflexivity.
Qed.

Lemma update_meta_then_get_meta_witness :
  exists s',
    OBSLocal.update_meta (OBSLocal.reads_template "Staging")
      (OBSLocal.mkProject "Staging" [])
      [("groups", ["factory-staging"]); ("users", ["alice"; "bob"])]
      [("users", ["carol"])] ["T"; "R1"] true wine_server
    = (Return tt, s') /\
    fst (OBSLocal.get_meta (OBSLocal.mkProject "Staging" []) s')
    = Return (OBSLocal.mkMeta
                (OBSLocal.mkRoles ["factory-staging"] ["alice"; "bob"])
                (OBSLocal.mkRoles [] ["carol"])
                ["T"; "R1"] true).
Proof.
  apply (update_meta_then_get_meta (OBSLocal.reads_template "Staging")
           (OBSLocal.mkProject "Staging" [])
           [("groups", ["factory-staging"]); ("users", ["alice"; "bob"])]
           [("users", ["carol"])] ["T"; "R1"] true wine_server).
  - reflexivity.
  - repeat constructor.
  - intros doc. reflexivity.
Defined.

Lemma add_group_links role g meta :
  OBSLocal.project_links (OBSLocal.add_group role g meta)
  = OBSLocal.project_links meta.
Proof. unfold OBSLocal.add_group. now destruct (String.eqb role "reviewer"). Qed.

Lemma add_user_links role u meta :
  OBSLocal.project_links (OBSLocal.add_user role u meta)
  = OBSLocal.project_links meta.
Proof. unfold OBSLocal.add_user. now destruct (String.eqb role "reviewer"). Qed.

Lemma get_meta_children_links cs :
  forall meta meta' acc,
    OBSLocal.get_meta_children cs meta = inr meta' ->
    exists ls,
      OBSLocal.project_links meta' = OBSLocal.project_links meta ++ ls /\
      parse_children cs acc = inr (acc ++ ls).
Proof.
  induction cs as [|c cs IH]; intros meta meta' acc Hrun; simpl in Hrun.
  - inversion Hrun; subst. exists []. now rewrite !app_nil_r.
  - destruct (OBSLocal.get_meta_child meta c) as [e|meta1] eqn:Hc;
      [discriminate|].
    simpl. unfold OBSLocal.get_meta_child in Hc.
    destruct (String.eqb_spec (ET.tag c) "repository") as [Hrepo|_].
    { rewrite Hrepo. simpl. inversion Hc; subst.
      destruct (IH _ _ acc Hrun) as (ls & Hls & Hp). exists ls. auto. }
    destruct (String.eqb (ET.tag c) "link") eqn:Hlink.
    { unfold OBSLocal.attrib_item in Hc.
      destruct (Dict.get (ET.attrib c) "project") as [p|]; [|discriminate].
      inversion Hc; subst.
      destruct (IH _ _ (acc ++ [p]) Hrun) as (ls & Hls & Hp).
      exists (p :: ls). simpl in Hls. rewrite <- !app_assoc in *. auto. }
    assert (Hsame : OBSLocal.project_links meta1 = OBSLocal.project_links meta).
    { destruct (String.eqb (ET.tag c) "group").
      - destruct (OBSLocal.attrib_item c "role") as [e|role]; [discriminate|].
        destruct (OBSLocal.unknown_role role); [now inversion Hc|].
        destruct (OBSLocal.attrib_item c "groupid"); [discriminate|].
        inversion Hc. apply add_group_links.
      - destruct (String.eqb (ET.tag c) "person"); [|now inversion Hc].
        destruct (OBSLocal.attrib_item c "role") as [e|role]; [discriminate|].
        destruct (OBSLocal.unknown_role role); [now inversion Hc|].
        destruct (OBSLocal.attrib_item c "userid"); [discriminate|].
        inversion Hc. apply add_user_links. }
    destruct (IH _ _ acc Hrun) as (ls & Hls & Hp). exists ls.
    rewrite <- Hsame. auto.
Qed.

(** X15: the projects that the fixture links are the ones that
    [RemoteProject] sees.  Under the conditions of the round trip of
    [update_meta], [find] on the name of the project, on the same
    server, returns a project whose linked names are the
    [project_links] given, in the same order. *)
Theorem update_meta_then_find
  (fromstring_text : string -> exn + element)
  (self : OBSLocal.Project) (reviewer maintainer : Dict.t (list string))
  (links : list string) (with_repo : bool) (s : obs) :
  fromstring_text (OBSLocal.meta_text (OBSLocal.name self))
  = inr (OBSLocal.template (OBSLocal.name self)) ->
  Forall (fun v => xml_compatible v = true)
    (OBSLocal.get_list reviewer "groups" ++ OBSLocal.get_list reviewer "users"
     ++ OBSLocal.get_list maintainer "groups"
     ++ OBSLocal.get_list maintainer "users" ++ links) ->
  (forall doc, put_refused s (OBSLocal.name self) doc = None) ->
  exists s',
    OBSLocal.update_meta fromstring_text self reviewer maintainer links
      with_repo s = (Return tt, s') /\
    fst (find (OBSLocal.name self) s')
    = Return (mkRemoteProject (OBSLocal.name self)
                (Some (mkProjectMetadata links))).
Proof.
  intros Hparser Hall Hput.
  destruct (get_meta_of_update_meta_root fromstring_text self reviewer
              maintainer links with_repo Hparser Hall)
    as (root & Hroot & Hread).
  unfold OBSLocal.update_meta, bind. rewrite Hroot. cbn [lift ret].
  unfold OBSLocal.custom_meta, http_PUT_meta, ET.tostring.
  rewrite Hput. eexists. split; [reflexivity|].
  rewrite find_eq. simpl. unfold resolve. simpl.
  rewrite String.eqb_refl. simpl. unfold parse. simpl.
  destruct (get_meta_children_links _ _ _ [] Hread) as (ls & Hls & Hp).
  simpl in Hls. subst ls. rewrite Hp. reflexivity.
Qed.

Lemma update_meta_then_find_witness :
  exists s',
    OBSLocal.update_meta (OBSLocal.reads_template "Staging")
      (OBSLocal.mkProject "Staging" [])
      [("groups", ["factory-staging"])] [] ["T"; "R1"] true wine_server
    = (Return tt, s') /\
    fst (find "Staging" s')
    = Return (mkRemoteProject "Staging"
                (Some (mkProjectMetadata ["T"; "R1"]))).
Proof.
  apply (update_meta_then_find (OBSLocal.reads_template "Staging")
           (OBSLocal.mkProject "Staging" [])
           [("groups", ["factory-staging"])] [] ["T"; "R1"] true wine_server).
  - reflexivity.
  - repeat constructor.
  - intros doc. reflexivity.
Defined.

(** X16: the fixture and [ProjectMetadata] read the links of a meta
    alike: when [get_meta] returns, [find] on the same project and
    server returns a project whose linked names are the [project_links]
    of the meta. *)
Theorem get_meta_agrees_with_find
  (self : OBSLocal.Project) (s : obs) (meta : OBSLocal.Meta) :
  fst (OBSLocal.get_meta self s) = Return meta ->
  fst (find (OBSLocal.name self) s)
  = Return (mkRemoteProject (OBSLocal.name self)
              (Some (mkProjectMetadata (OBSLocal.project_links meta)))).
Proof.
  unfold OBSLocal.get_meta, bind, http_GET_meta. rewrite find_eq.
  unfold resolve, load_result. simpl.
  destruct (prj_meta s (OBSLocal.name self)) as [e|[root|raw]];
    [discriminate| |discriminate].
  simpl. rewrite lift_eq. unfold parse. simpl.
  destruct (OBSLocal.get_meta_children (ET.children root) _)
    as [e|meta'] eqn:Hrun; [discriminate|].
  simpl. intros H. inversion H; subst.
  destruct (get_meta_children_links _ _ _ [] Hrun) as (ls & Hls & Hp).
  simpl in Hls, Hp. rewrite Hp, Hls. reflexivity.
Qed.

Lemma get_meta_agrees_with_find_witness :
  fst (find "T" wine_server)
  = Return (mkRemoteProject "T" (Some (mkProjectMetadata ["R1"]))).
Proof.
  exact (get_meta_agrees_with_find (OBSLocal.mkProject "T" []) wine_server
           (OBSLocal.mkMeta (OBSLocal.mkRoles [] []) (OBSLocal.mkRoles [] [])
              ["R1"] false) eq_refl).
Defined.

(** ** The closure as a set *)

Lemma reachable_seed_ext meta seed1 seed2 n :
  (forall k, In k seed1 -> In k seed2) ->
  reachable meta seed1 n -> reachable meta seed2 n.
Proof.
  intros Hsub. induction 1 as [k Hk|k k' _ IH Hlink].
  - apply reach_seed. auto.
  - now apply reach_link with k.
Qed.

Lemma closure_included m1 m2 fuel1 fuel2 s r1 r2 s1 s2 :
  (forall n, In n (linked_projects_names m1) ->
             In n (linked_projects_names m2)) ->
  linked_projects fuel1 m1 true s = (Return r1, s1) ->
  linked_projects fuel2 m2 true s = (Return r2, s2) ->
  forall p, In p r1 -> In p r2.
Proof.
  unfold linked_projects. intros Hsub H1 H2 p Hp.
  destruct (walk_spec (prj_meta s) (linked_projects_names m1) fuel1
              _ _ s _ _ eq_refl (walk_inv_init _ _) H1)
    as (f1 & _ & _ & _ & Hret1).
  destruct (walk_spec (prj_meta s) (linked_projects_names m2) fuel2
              _ _ s _ _ eq_refl (walk_inv_init _ _) H2)
    as (f2 & _ & _ & _ & Hret2).
  destruct (Hret1 r1 eq_refl) as (_ & Hinv1).
  destruct (Hret2 r2 eq_refl) as (_ & Hinv2).
  assert (Hname : In (name p) (map name r2)).
  { apply (walk_inv_done _ _ _ _ Hinv2).
    apply (reachable_seed_ext _ _ _ _ Hsub).
    apply (walk_inv_done _ _ _ _ Hinv1). now apply in_map. }
  apply in_map_iff in Hname. destruct Hname as (q & Hq & Hin).
  pose proof (inv_resolved Hinv1) as Hres1.
  pose proof (inv_resolved Hinv2) as Hres2.
  rewrite Forall_forall in Hres1, Hres2.
  specialize (Hres1 p Hp). specialize (Hres2 q Hin).
  rewrite Hq in Hres2. rewrite Hres1 in Hres2. inversion Hres2; subst.
  exact Hin.
Qed.

(** X17: which projects the closure holds does not depend on the order
    of the links nor on their repetitions: two link lists with the same
    names give, on the same server, results with the same projects. *)
Theorem closure_independent_of_link_order
  (m1 m2 : ProjectMetadata) (fuel1 fuel2 : nat) (s s1 s2 : obs)
  (r1 r2 : list RemoteProject) :
  (forall n, In n (linked_projects_names m1)
             <-> In n (linked_projects_names m2)) ->
  linked_projects fuel1 m1 true s = (Return r1, s1) ->
  linked_projects fuel2 m2 true s = (Return r2, s2) ->
  forall p, In p r1 <-> In p r2.
Proof.
  intros Hsame H1 H2 p. split.
  - apply (closure_included m1 m2 fuel1 fuel2 s r1 r2 s1 s2); auto.
    intros n. apply Hsame.
  - apply (closure_included m2 m1 fuel2 fuel1 s r2 r1 s2 s1); auto.
    intros n. apply Hsame.
Qed.

Lemma closure_independent_of_link_order_witness :
  In (mkRemoteProject "C" (Some (mkProjectMetadata ["B"])))
     [mkRemoteProject "A" (Some (mkProjectMetadata ["A"; "B"]));
      mkRemoteProject "B" (Some (mkProjectMetadata ["C"; "A"]));
      mkRemoteProject "C" (Some (mkProjectMetadata ["B"]))]
  <-> In (mkRemoteProject "C" (Some (mkProjectMetadata ["B"])))
         [mkRemoteProject "B" (Some (mkProjectMetadata ["C"; "A"]));
          mkRemoteProject "A" (Some (mkProjectMetadata ["A"; "B"]));
          mkRemoteProject "C" (Some (mkProjectMetadata ["B"]))].
Proof.
  apply (closure_independent_of_link_order
           (mkProjectMetadata ["A"; "B"]) (mkProjectMetadata ["B"; "A"; "B"])
           8 8 cyclic_server
           (snd (linked_projects 8 (mkProjectMetadata ["A"; "B"]) true
                   cyclic_server))
           (snd (linked_projects 8 (mkProjectMetadata ["B"; "A"; "B"]) true
                   cyclic_server))).
  - intros n. simpl. tauto.
  - reflexivity.
  - reflexivity.
Defined.

(** ** The first link wins *)

Lemma walk_same_outcome fuel recursive :
  forall to_process result s s0,
    prj_meta s0 = prj_meta s ->
    fst (linked_projects_loop fuel recursive to_process result s0)
    = fst (linked_projects_loop fuel recursive to_process result s).
Proof.
  induction fuel as [|fuel IH]; intros to_process result s s0 Hs.
  - destruct to_process; reflexivity.
  - destruct to_process as [|n to_process]; simpl; [reflexivity|].
    destruct (forallb _ result); [|now apply IH].
    unfold bind. rewrite !find_eq, Hs.
    destruct (resolve (prj_meta s) n) as [e|r]; simpl; [reflexivity|].
    destruct recursive; [|now apply IH].
    unfold metadata_of. destruct (metadata r); simpl; [|reflexivity].
    now apply IH.
Qed.

Section FirstWins.

Variable releasename : RemotePackage.t -> string.

Hypothesis by_name :
  forall p q, RemotePackage.name p = RemotePackage.name q ->
              releasename p = releasename q.

Lemma merge_fold_first cands :
  forall d,
    NoDup (Dict.keys d) ->
    exists added,
      fold_left (merge_pkg releasename) cands d = d ++ added /\
      Forall (fun kv =>
                exists pre post,
                  cands = pre ++ snd kv :: post /\
                  Forall (fun c => RemotePackage.name c
                                   <> RemotePackage.name (snd kv)) pre)
        added.
Proof.
  induction cands as [|c cands IH]; intros d Hnd; simpl.
  - exists []. rewrite app_nil_r. auto.
  - destruct (merge_fold_spec releasename cands (merge_pkg releasename d c))
      as (added0 & Hfold0 & Hall0 & Hnd0).
    destruct (merge_pkg_cases releasename d c)
      as [Hskip|(Hins & Hname & Hpi & Hklp & Hrn)].
    + rewrite Hskip in *. destruct (IH d Hnd) as (added & Hfold & Hfirst).
      exists added. split; [exact Hfold|].
      assert (Hsame : added = added0)
        by (apply (app_inv_head d); congruence).
      subst added0. specialize (Hnd0 Hnd).
      rewrite Forall_forall in *. intros kv Hkv.
      destruct (Hfirst kv Hkv) as (pre & post & Hcands & Hpre).
      exists (c :: pre), post. split; [now rewrite Hcands|].
      constructor; [|exact Hpre]. intros Heq.
      destruct (Hall0 kv Hkv) as (Hkey & _ & Hpi' & Hklp' & Hnotin).
      assert (Hkv_key : ~ In (fst kv) (Dict.keys d)).
      { rewrite keys_app in Hnd0. intros Hin.
        apply in_split in Hkv. destruct Hkv as (a1 & a2 & ->).
        unfold Dict.keys in Hnd0 at 2. rewrite map_app in Hnd0. simpl in Hnd0.
        rewrite app_assoc in Hnd0. apply NoDup_remove_2 in Hnd0.
        apply Hnd0. rewrite !in_app_iff. auto. }
      unfold merge_pkg in Hskip. rewrite Heq in Hskip.
      apply dict_mem_false in Hnotin. rewrite Hnotin, Hpi', Hklp' in Hskip.
      rewrite (by_name c (snd kv) Heq), <- Hkey in Hskip.
      apply dict_mem_false in Hkv_key. rewrite Hkv_key in Hskip.
      assert (Hlen : List.length (Dict.set d (fst kv) c) = List.length d)
        by now rewrite Hskip.
      rewrite dict_set_fresh, length_app in Hlen by exact Hkv_key.
      simpl in Hlen. lia.
    + rewrite Hins in *.
      assert (Hnd1 : NoDup (Dict.keys (d ++ [(releasename c, c)]))).
      { rewrite keys_app. simpl.
        apply NoDup_app; [exact Hnd | repeat constructor; simpl; tauto |].
        intros a Ha [<-|[]]. apply dict_mem_false in Hrn. contradiction. }
      destruct (IH _ Hnd1) as (added & Hfold & Hfirst).
      exists ((releasename c, c) :: added).
      split; [now rewrite Hfold, <- app_assoc|].
      constructor.
      { exists [], cands. simpl. auto. }
      assert (Hsame : added = added0)
        by (apply (app_inv_head (d ++ [(releasename c, c)])); congruence).
      subst added0. specialize (Hnd0 Hnd1).
      rewrite Forall_forall in *. intros kv Hkv.
      destruct (Hfirst kv Hkv) as (pre & post & Hcands & Hpre).
      exists (c :: pre), post. split; [now rewrite Hcands|].
      constructor; [|exact Hpre]. intros Heq.
      destruct (Hall0 kv Hkv) as (Hkey & _).
      rewrite keys_app in Hnd0.
      apply in_split in Hkv. destruct Hkv as (a1 & a2 & ->).
      unfold Dict.keys in Hnd0 at 2. rewrite map_app in Hnd0. simpl in Hnd0.
      rewrite app_assoc in Hnd0. apply NoDup_remove_2 in Hnd0.
      apply Hnd0. rewrite Hkey, <- (by_name c (snd kv) Heq).
      rewrite keys_app, !in_app_iff. simpl. auto.
Qed.

End FirstWins.

(** X18: the first link wins.  When the release name of a package
    depends on its name only, every inherited package of a merged result
    is the first package of its name that the projects of the closure,
    taken in closure order, offer. *)
Theorem first_link_wins
  (releasename : RemotePackage.t -> string) (fuel : nat)
  (self : RemoteProject) (s s' : obs) (pkgs : list RemotePackage.t) :
  (forall p q, RemotePackage.name p = RemotePackage.name q ->
               releasename p = releasename q) ->
  get_packages releasename fuel self true s = (Return pkgs, s') ->
  exists m l closure inherited,
    metadata self = Some m /\
    packagelist s (name self) = inr l /\
    fst (linked_projects fuel m true s) = Return closure /\
    pkgs = map (fun n => RemotePackage.mk n (name self)) (nub l) ++ inherited /\
    forall p, In p inherited ->
      exists pre post,
        candidates (packagelist s) closure = pre ++ p :: post /\
        Forall (fun c => RemotePackage.name c <> RemotePackage.name p) pre.
Proof.
  intros Hrn. unfold get_packages, bind. rewrite package_list_eq.
  destruct (packagelist s (name self)) as [e|l] eqn:Hl; [discriminate|].
  unfold metadata_of. destruct (metadata self) as [m|]; [|discriminate].
  simpl. unfold linked_projects.
  pose proof (walk_same_outcome fuel true (linked_projects_names m) [] s
                (logged s [GET_packagelist (name self)]) eq_refl) as Hsame.
  destruct (linked_projects_loop fuel true (linked_projects_names m) []
              (logged s [GET_packagelist (name self)]))
    as [[closure| |] s2] eqn:Hwalk; try discriminate.
  pose proof (walk_log _ _ _ _ _ _ _ Hwalk) as (fetched & Hs2).
  unfold _merge_inherited, bind.
  destruct (merge_projects releasename closure _ s2) as [[d| |] s3] eqn:Hm;
    try discriminate.
  intros H. inversion H; subst pkgs s'. clear H.
  apply merge_projects_return in Hm. rewrite Hs2 in Hm. simpl in Hm.
  rewrite dict_by_name_own in Hm.
  destruct (merge_fold_first releasename Hrn (candidates (packagelist s) closure)
              (map (own_entry (name self)) (nub l)))
    as (added & Hfold & Hfirst).
  { rewrite own_entries_keys. apply nub_from_nodup. }
  exists m, l, closure, (Dict.values added).
  split; [reflexivity|]. split; [reflexivity|].
  split; [now rewrite <- Hsame|].
  split; [now rewrite Hm, Hfold, values_app, own_entries_values|].
  intros p Hp. unfold Dict.values in Hp. apply in_map_iff in Hp.
  destruct Hp as (kv & <- & Hkv).
  rewrite Forall_forall in Hfirst. exact (Hfirst kv Hkv).
Qed.

Lemma first_link_wins_witness :
  exists m l closure inherited,
    Some (mkProjectMetadata ["R1"]) = Some m /\
    packagelist wine_server "T" = inr l /\
    fst (linked_projects 2 m true wine_server) = Return closure /\
    [RemotePackage.mk "wine" "T"; RemotePackage.mk "foo" "R1"]
    = map (fun n => RemotePackage.mk n "T") (nub l) ++ inherited /\
    forall p, In p inherited ->
      exists pre post,
        candidates (packagelist wine_server) closure = pre ++ p :: post /\
        Forall (fun c => RemotePackage.name c <> RemotePackage.name p) pre.
Proof.
  apply (first_link_wins releasename_ex 2
           (mkRemoteProject "T" (Some (mkProjectMetadata ["R1"])))
           wine_server
           (snd (get_packages releasename_ex 2
                   (mkRemoteProject "T" (Some (mkProjectMetadata ["R1"])))
                   true wine_server))).
  - intros p q H. unfold releasename_ex. now rewrite H.
  - reflexivity.
Defined.
